(** * AutoRipService: the polling / dedup / dispatch control loop

    A shallow embedding of [src/services/auto-rip.service.js] and the
    properties its specification states about it.

    The service object is a record of its five mutable fields.  Calls into
    the collaborators that are awaited ([import], [detectAvailableDiscs],
    [getCompleteDiscInfo], the two queue entry points) are suspension points:
    what they return or raise is an input of the model.  Everything the
    service does to the outside (log lines, status events, collaborator
    calls) is recorded, in order, as a list of events.

    Modelling conventions:
    - [driveNumber] is a natural number ([N]) and [title] a string; the
      [Map] from drive to title is a [gmap N string];
    - a thrown value is any JavaScript value: null and undefined, and
      objects whose [message] is a string, absent, or something else;
    - a JavaScript number is an IEEE 754 double ([spec_float] at precision
      53), so [*] rounds as the host does and yields NaN for an interval
      that is undefined; reading [AppConfig] does not raise;
    - [setInterval] is Node's: a delay that is not within 1 and 2^31-1
      (NaN included) is replaced by 1;
    - the handle [setInterval] returns is an object (Node's [Timeout]), so it
      is always truthy; handles are numbered from 1 in allocation order;
    - [Logger] calls and [emit] do not raise; so the [catch] of the timer
      callback (an error-level log) is entered only when the [catch] block
      of [checkDrives] itself throws. *)

From stdpp Require Import gmap strings list fin_maps.
From Stdlib Require Import ZArith SpecFloat.

(** ** Data *)

(** A disc record as the inventory reports it; [fileInfo] is only there
    after enrichment. *)
Record Disc := mkDisc {
  driveNumber : N;
  title : string;
  fileInfo : option string
}.

Global Instance Disc_eq_dec : EqDecision Disc.
Proof. solve_decision. Defined.

(** A value thrown by (or a rejection of) an awaited call: any JavaScript
    value, as far as the handler of [checkDrives] tells values apart.
    [mkError m] is a value whose [message] is the string [m] (an [Error],
    say), or is absent or falsy ([None]: an object without message, a
    thrown string or number); [ThrownNull] and [ThrownUndefined] are the
    two values that have no properties; [OddMessage] is a value whose
    [message] is neither a string nor falsy (a number, an array, an object
    with methods of its own) or is an accessor, given by what the handler's
    use of it does: [Suppressed] when calling its [includes] returns a
    truthy value, [Printed r] when that returns a falsy one and the message
    prints as [r] in the template, [UseThrows x] when reading the message,
    calling [includes] (a number or a plain object has none) or printing
    throws [x]. *)
Inductive JsError :=
| mkError (message : option string)
| ThrownNull
| ThrownUndefined
| OddMessage (use : MessageUse)
with MessageUse :=
| Suppressed
| Printed (rendered : string)
| UseThrows (thrown : JsError).

Fixpoint JsError_eq_dec (x y : JsError) : Decision (x = y)
with MessageUse_eq_dec (x y : MessageUse) : Decision (x = y).
Proof.
  - unfold Decision. decide equality;
      [apply (option_eq_dec (A := string)) | apply MessageUse_eq_dec].
  - unfold Decision. decide equality;
      [apply (decide_rel (=)) | apply JsError_eq_dec].
Defined.

Global Existing Instance JsError_eq_dec.
Global Existing Instance MessageUse_eq_dec.

(** How an awaited call settles. *)
Inductive Outcome (A : Type) :=
| Returned (a : A)
| Raised (e : JsError).
Arguments Returned {A} a.
Arguments Raised {A} e.

(** A configuration value as JavaScript sees it. *)
Inductive JsValue :=
| JsUndefined
| JsNull
| JsBool (b : bool)
| JsNumber (z : Z)
| JsString (s : string).

(** [v === s] for a string literal [s]. *)
Definition strictEqString (v : JsValue) (s : string) : bool :=
  match v with
  | JsString s' => bool_decide (s' = s)
  | _ => false
  end.

(** A JavaScript number: a double.  [number z] is the double nearest to the
    integer [z], [jsTimes] the operator [*] on numbers. *)
Definition Double := spec_float.

Global Instance Double_eq_dec : EqDecision Double.
Proof. solve_decision. Defined.

Definition number (z : Z) : Double := binary_normalize 53 1024 z 0 false.

Coercion number : Z >-> Double.

Definition jsTimes (x y : Double) : Double := SFmul 53 1024 x y.

(** [AppConfig], as far as the service reads it; [autoRipPollInterval] is
    the configured value as [*] reads it (NaN when it is undefined). *)
Record AppConfig := mkConfig {
  autoRipPollInterval : Double;
  autoRipMode : JsValue
}.
Arguments mkConfig autoRipPollInterval%_Z autoRipMode.

(** The collaborators ([DiscService], [RipService]) are not among the
    sources: they are taken as the outcomes of their calls. *)
Record Collaborators := mkCollab {
  importDiscService : Outcome unit;
  detectAvailableDiscs : Outcome (list Disc);
  getCompleteDiscInfo : list Disc -> Outcome (list Disc);
  processRippingQueue : list Disc -> Outcome unit;
  processBackupQueue : list Disc -> Outcome unit
}.

Inductive Level := Info | Warning | Error.

Inductive LogMsg :=
| MsgAlreadyRunning
| MsgStarting
| MsgStopping
| MsgPollingStarted (ms : Double)
| MsgDetected (n : nat)
| MsgStartingProcessing (n : nat)
| MsgPollingWarning (m : string)
| MsgProcessingFailed (e : JsError)
| MsgPollError (e : JsError).

Arguments MsgPollingStarted ms%_Z.

(** What the service does to the outside. *)
Inductive Event :=
| Log (lvl : Level) (msg : LogMsg)
| Emit (state : string)
| Import
| Detect
| Enrich (discs : list Disc)
| RipQueue (items : list Disc)
| BackupQueue (items : list Disc).

Global Instance Level_eq_dec : EqDecision Level.
Proof. solve_decision. Defined.
Global Instance LogMsg_eq_dec : EqDecision LogMsg.
Proof. solve_decision. Defined.
Global Instance Event_eq_dec : EqDecision Event.
Proof. solve_decision. Defined.

(** ** The service object *)

Record Service := mkService {
  isPolling : bool;
  pollInterval : option nat;
  processedDiscs : gmap N string;
  currentOperation : option string;
  isChecking : bool
}.

(** [new AutoRipService()] *)
Definition constructor : Service :=
  {| isPolling := false; pollInterval := None; processedDiscs := ∅;
     currentOperation := None; isChecking := false |}.

Definition set_isPolling (b : bool) (s : Service) : Service :=
  {| isPolling := b; pollInterval := pollInterval s;
     processedDiscs := processedDiscs s;
     currentOperation := currentOperation s; isChecking := isChecking s |}.

Definition set_pollInterval (t : option nat) (s : Service) : Service :=
  {| isPolling := isPolling s; pollInterval := t;
     processedDiscs := processedDiscs s;
     currentOperation := currentOperation s; isChecking := isChecking s |}.

Definition set_processedDiscs (m : gmap N string) (s : Service) : Service :=
  {| isPolling := isPolling s; pollInterval := pollInterval s;
     processedDiscs := m;
     currentOperation := currentOperation s; isChecking := isChecking s |}.

Definition set_currentOperation (o : option string) (s : Service) : Service :=
  {| isPolling := isPolling s; pollInterval := pollInterval s;
     processedDiscs := processedDiscs s;
     currentOperation := o; isChecking := isChecking s |}.

Definition set_isChecking (b : bool) (s : Service) : Service :=
  {| isPolling := isPolling s; pollInterval := pollInterval s;
     processedDiscs := processedDiscs s;
     currentOperation := currentOperation s; isChecking := b |}.

(** Truthiness of a string-or-null field. *)
Definition truthy (o : option string) : bool :=
  match o with
  | Some s => negb (bool_decide (s = EmptyString))
  | None => false
  end.

(** ** The host's timer table *)

Record Host := mkHost {
  liveTimers : gmap nat Double;   (* handle -> period in ms *)
  nextHandle : nat
}.

Definition TIMEOUT_MAX : Z := 2147483647.

(** The period Node gives a timer asked for with delay [after]:
    [if (!(after >= 1 && after <= TIMEOUT_MAX)) after = 1]. *)
Definition timerDelay (after : Double) : Double :=
  if negb (SFleb (number 1) after && SFleb after (number TIMEOUT_MAX))
  then number 1
  else after.

Definition setInterval (ms : Double) (h : Host) : nat * Host :=
  (nextHandle h,
   {| liveTimers := <[nextHandle h := timerDelay ms]> (liveTimers h);
      nextHandle := S (nextHandle h) |}).

Definition clearInterval (t : nat) (h : Host) : Host :=
  {| liveTimers := delete t (liveTimers h); nextHandle := nextHandle h |}.

(** ** stopPolling, startPolling, start, stop, getStatus *)

Definition stopPolling (s : Service) (h : Host) : Service * Host :=
  match pollInterval s with
  | Some t => (set_pollInterval None s, clearInterval t h)
  | None => (s, h)
  end.

Definition startPolling (cfg : AppConfig) (s : Service) (h : Host)
  : Service * Host * list Event :=
  let '(s1, h1) := stopPolling s h in
  let interval := jsTimes (autoRipPollInterval cfg) (number 1000) in
  let '(t, h2) := setInterval interval h1 in
  (set_pollInterval (Some t) s1, h2, [Log Info (MsgPollingStarted interval)]).

Definition start (cfg : AppConfig) (s : Service) (h : Host)
  : Service * Host * list Event :=
  if isPolling s then (s, h, [Log Info MsgAlreadyRunning])
  else
    let '(s1, h1, ev) := startPolling cfg (set_isPolling true s) h in
    (s1, h1, [Log Info MsgStarting] ++ ev ++ [Emit "scanning"]).

Definition stop (s : Service) (h : Host) : Service * Host * list Event :=
  if negb (isPolling s) then (s, h, [])
  else
    let '(s1, h1) := stopPolling (set_isPolling false s) h in
    (s1, h1, [Log Info MsgStopping; Emit "idle"]).


(** ** The scan cycle: checkDrives *)

Fixpoint startsWith (needle hay : string) : bool :=
  match needle, hay with
  | EmptyString, _ => true
  | String a n', String b h' => bool_decide (a = b) && startsWith n' h'
  | String _ _, EmptyString => false
  end.

(** [hay.includes(needle)] *)
Fixpoint includes (needle hay : string) : bool :=
  startsWith needle hay ||
  match hay with
  | EmptyString => false
  | String _ h' => includes needle h'
  end.

(** The [TypeError] of reading a property of null or undefined (the text
    is V8's). *)
Definition cannotReadMessage (what : string) : JsError :=
  mkError
    (Some ("Cannot read properties of " +:+ what +:+ " (reading 'message')")).

(** The [catch] block of [checkDrives]: what it logs, and what it throws
    when it does not complete.  Reading [error.message] throws on null and
    undefined; a message that is neither a string nor falsy does what that
    value makes the condition and the template do. *)
Definition catchBlock (e : JsError) : list Event * option JsError :=
  match e with
  | mkError None => ([], None)
  | mkError (Some m) =>
      if truthy (Some m) && negb (includes "executable not found" m)
      then ([Log Warning (MsgPollingWarning m)], None)
      else ([], None)
  | ThrownNull => ([], Some (cannotReadMessage "null"))
  | ThrownUndefined => ([], Some (cannotReadMessage "undefined"))
  | OddMessage Suppressed => ([], None)
  | OddMessage (Printed rendered) =>
      ([Log Warning (MsgPollingWarning rendered)], None)
  | OddMessage (UseThrows thrown) => ([], Some thrown)
  end.

Definition scanCatch (e : JsError) : list Event := (catchBlock e).1.

Definition scanCatchThrows (e : JsError) : option JsError :=
  (catchBlock e).2.

(** The [catch] of the timer callback, for what [checkDrives] rejects
    with. *)
Definition pollCatch (rejection : option JsError) : list Event :=
  match rejection with
  | Some error => [Log Error (MsgPollError error)]
  | None => []
  end.

(** [detectedDiscs.forEach(disc => detectedDriveMap.set(...))] *)
Definition detectedDriveMapOf (detectedDiscs : list Disc) : gmap N string :=
  foldl (λ m disc, <[driveNumber disc := title disc]> m) ∅ detectedDiscs.

(** The cleanup loop: every entry of the tracker is visited once, and
    deleted from it when the drive is not in the detected map or is there
    under another title. *)
Definition cleanup (detectedDriveMap processed : gmap N string)
  : gmap N string :=
  map_fold
    (λ drive t acc,
       if decide (detectedDriveMap !! drive = Some t) then acc
       else delete drive acc)
    processed processed.

(** The filter for new discs. *)
Definition newDiscsOf (detectedDiscs : list Disc) (processed : gmap N string)
  : list Disc :=
  filter (λ disc, processed !! driveNumber disc = None) detectedDiscs.

(** [commandDataItems.forEach(item => this.processedDiscs.set(...))] *)
Definition markProcessed (items : list Disc) (processed : gmap N string)
  : gmap N string :=
  foldl (λ m item, <[driveNumber item := title item]> m) processed items.

(** *** processDiscs, in the two halves the [await] cuts it into *)

Inductive Pipeline := RipPipeline | BackupPipeline.

Definition selectPipeline (cfg : AppConfig) : Pipeline :=
  if strictEqString (autoRipMode cfg) "backup" then BackupPipeline
  else RipPipeline.

Definition callPipeline (p : Pipeline) (items : list Disc) : Event :=
  match p with
  | BackupPipeline => BackupQueue items
  | RipPipeline => RipQueue items
  end.

Definition pipelineOutcome (c : Collaborators) (p : Pipeline)
  (items : list Disc) : Outcome unit :=
  match p with
  | BackupPipeline => processBackupQueue c items
  | RipPipeline => processRippingQueue c items
  end.

(** From the entry of [processDiscs] to the call it awaits. [None] is the
    early return on a null, undefined or empty argument ([commandDataItems]
    is [None] for null and undefined). *)
Definition processDiscs_enter (cfg : AppConfig)
  (commandDataItems : option (list Disc)) (s : Service)
  : option (Service * list Event * list Disc) :=
  match commandDataItems with
  | None | Some [] => None
  | Some items =>
      let s1 := set_currentOperation (Some "processing"%string) s in
      let mode := selectPipeline cfg in
      let s2 :=
        set_processedDiscs (markProcessed items (processedDiscs s1)) s1 in
      Some (s2, [Emit "processing"; callPipeline mode items], items)
  end.

(** From the settling of that call to the end: [catch] and [finally]. *)
Definition processDiscs_leave (o : Outcome unit) (s : Service)
  : Service * list Event :=
  let failed :=
    match o with
    | Returned _ => []
    | Raised e => [Log Error (MsgProcessingFailed e)]
    end in
  (set_currentOperation None s, failed ++ [Emit "scanning"]).

Definition processDiscs (cfg : AppConfig) (c : Collaborators)
  (commandDataItems : option (list Disc)) (s : Service)
  : Service * list Event :=
  match processDiscs_enter cfg commandDataItems s with
  | None => (s, [])
  | Some (s1, ev1, items) =>
      let '(s2, ev2) :=
        processDiscs_leave (pipelineOutcome c (selectPipeline cfg) items) s1 in
      (s2, ev1 ++ ev2)
  end.

(** *** checkDrives, in the pieces its [await]s cut it into *)

(** From the result of [detectAvailableDiscs] to the enrichment call, or to
    the end of the cycle when no disc is new. *)
Definition afterDetect (detectedDiscs : list Disc) (s : Service)
  : Service * list Event * option (list Disc) :=
  let detectedDriveMap := detectedDriveMapOf detectedDiscs in
  let s1 :=
    set_processedDiscs (cleanup detectedDriveMap (processedDiscs s)) s in
  let newDiscs := newDiscsOf detectedDiscs (processedDiscs s1) in
  if bool_decide (0 < length newDiscs) then
    (s1, [Log Info (MsgDetected (length newDiscs)); Enrich newDiscs],
     Some newDiscs)
  else (s1, [], None).

(** [checkDrives], run to completion with the collaborators' outcomes [c]:
    the state it leaves and what it does, its [catch] block included.
    Whether the promise it returns is then rejected (the [catch] block
    threw) is [checkDrivesRejects] below. *)
Definition checkDrives (cfg : AppConfig) (c : Collaborators) (s : Service)
  : Service * list Event :=
  match importDiscService c with
  | Raised e => (s, [Import] ++ scanCatch e)
  | Returned _ =>
      match detectAvailableDiscs c with
      | Raised e => (s, [Import; Detect] ++ scanCatch e)
      | Returned detectedDiscs =>
          match afterDetect detectedDiscs s with
          | (s1, ev1, None) => (s1, [Import; Detect] ++ ev1)
          | (s1, ev1, Some newDiscs) =>
              match getCompleteDiscInfo c newDiscs with
              | Raised e => (s1, [Import; Detect] ++ ev1 ++ scanCatch e)
              | Returned completeDiscItems =>
                  let '(s2, ev2) :=
                    processDiscs cfg c (Some completeDiscItems) s1 in
                  (s2,
                   [Import; Detect] ++ ev1 ++
                   [Log Info (MsgStartingProcessing (length completeDiscItems))]
                   ++ ev2)
              end
          end
      end
  end.

(** What the promise of [checkDrives] rejects with: what its [catch] block
    throws, when an inventory call raised and the block does not complete.
    ([checkDrives] above gives the state and the events up to there.) *)
Definition checkDrivesRejects (c : Collaborators) (s : Service)
  : option JsError :=
  match importDiscService c with
  | Raised e => scanCatchThrows e
  | Returned _ =>
      match detectAvailableDiscs c with
      | Raised e => scanCatchThrows e
      | Returned detectedDiscs =>
          match (afterDetect detectedDiscs s).2 with
          | None => None
          | Some newDiscs =>
              match getCompleteDiscInfo c newDiscs with
              | Raised e => scanCatchThrows e
              | Returned _ => None
              end
          end
      end
  end.

(** The timer callback, run to completion with the collaborators' outcomes
    [c]: the gate, the scan, the [catch] for what the scan rejects with,
    and the [finally] that reopens the gate. *)
Definition pollTick (cfg : AppConfig) (c : Collaborators) (s : Service)
  : Service * list Event :=
  if truthy (currentOperation s) || isChecking s then (s, [])
  else
    let '(s1, ev) := checkDrives cfg c (set_isChecking true s) in
    (set_isChecking false s1,
     ev ++ pollCatch (checkDrivesRejects c (set_isChecking true s))).

(** ** The service among timer ticks: suspended callbacks

    A timer callback that has passed the gate is suspended at each [await]
    until the awaited call settles; meanwhile the timer may fire again and
    [start] and [stop] may be called.  A [Task] is a suspended callback, by
    the [await] it waits at. *)

Inductive Task :=
| AwaitImport
| AwaitDetect
| AwaitEnrich (newDiscs : list Disc)
| AwaitPipeline (items : list Disc).

Inductive Reply :=
| ImportSettled (o : Outcome unit)
| DetectSettled (o : Outcome (list Disc))
| EnrichSettled (o : Outcome (list Disc))
| PipelineSettled (o : Outcome unit).

(** The [finally] of the timer callback. *)
Definition callbackReturns (s : Service) : Service := set_isChecking false s.

(** Resuming a suspended callback with the outcome of the call it awaits:
    the new state, what it does, and where it suspends next ([None]: the
    callback has returned).  A reply of the wrong kind resumes nothing. *)
Definition resume (cfg : AppConfig) (t : Task) (r : Reply) (s : Service)
  : option (Service * list Event * option Task) :=
  match t, r with
  | AwaitImport, ImportSettled (Returned _) =>
      Some (s, [Detect], Some AwaitDetect)
  | AwaitImport, ImportSettled (Raised e) =>
      Some (callbackReturns s, scanCatch e ++ pollCatch (scanCatchThrows e),
            None)
  | AwaitDetect, DetectSettled (Returned detectedDiscs) =>
      match afterDetect detectedDiscs s with
      | (s1, ev, Some newDiscs) => Some (s1, ev, Some (AwaitEnrich newDiscs))
      | (s1, ev, None) => Some (callbackReturns s1, ev, None)
      end
  | AwaitDetect, DetectSettled (Raised e) =>
      Some (callbackReturns s, scanCatch e ++ pollCatch (scanCatchThrows e),
            None)
  | AwaitEnrich _, EnrichSettled (Returned completeDiscItems) =>
      let info :=
        Log Info (MsgStartingProcessing (length completeDiscItems)) in
      match processDiscs_enter cfg (Some completeDiscItems) s with
      | Some (s1, ev, items) => Some (s1, info :: ev, Some (AwaitPipeline items))
      | None => Some (callbackReturns s, [info], None)
      end
  | AwaitEnrich _, EnrichSettled (Raised e) =>
      Some (callbackReturns s, scanCatch e ++ pollCatch (scanCatchThrows e),
            None)
  | AwaitPipeline _, PipelineSettled o =>
      let '(s1, ev) := processDiscs_leave o s in
      Some (callbackReturns s1, ev, None)
  | _, _ => None
  end.

Record Machine := mkMachine {
  service : Service;
  host : Host;
  pending : list Task;      (* the suspended timer callbacks *)
  emitted : list Event      (* everything done so far, oldest first *)
}.

Inductive Action :=
| CallStart
| CallStop
| TimerFires (t : nat)
| Settles (i : nat) (r : Reply).

Definition initial : Machine :=
  {| service := constructor;
     host := {| liveTimers := ∅; nextHandle := 1 |};
     pending := []; emitted := [] |}.

(** The timer callback up to its first [await]. *)
Definition timerCallback (m : Machine) : Machine :=
  let s := service m in
  if truthy (currentOperation s) || isChecking s then m
  else
    {| service := set_isChecking true s; host := host m;
       pending := pending m ++ [AwaitImport];
       emitted := emitted m ++ [Import] |}.

(** One step; [None] when the action cannot happen (a timer that is not
    live does not fire, a call that is not awaited does not settle). *)
Definition step (cfg : AppConfig) (a : Action) (m : Machine)
  : option Machine :=
  match a with
  | CallStart =>
      let '(s, h, ev) := start cfg (service m) (host m) in
      Some {| service := s; host := h; pending := pending m;
              emitted := emitted m ++ ev |}
  | CallStop =>
      let '(s, h, ev) := stop (service m) (host m) in
      Some {| service := s; host := h; pending := pending m;
              emitted := emitted m ++ ev |}
  | TimerFires t =>
      match liveTimers (host m) !! t with
      | Some _ => Some (timerCallback m)
      | None => None
      end
  | Settles i r =>
      match pending m !! i with
      | None => None
      | Some t =>
          match resume cfg t r (service m) with
          | None => None
          | Some (s, ev, next) =>
              Some {| service := s; host := host m;
                      pending :=
                        match next with
                        | Some t' => <[i := t']> (pending m)
                        | None => delete i (pending m)
                        end;
                      emitted := emitted m ++ ev |}
          end
      end
  end.

Fixpoint run (cfg : AppConfig) (actions : list Action) (m : Machine)
  : option Machine :=
  match actions with
  | [] => Some m
  | a :: rest =>
      match step cfg a m with
      | Some m' => run cfg rest m'
      | None => None
      end
  end.

Definition reachable (cfg : AppConfig) (m : Machine) : Prop :=
  ∃ actions, run cfg actions initial = Some m.

(** Scan cycles in flight, and processing runs in flight. *)
Definition scansInFlight (m : Machine) : nat := length (pending m).

Definition isProcessing (t : Task) : bool :=
  match t with
  | AwaitPipeline _ => true
  | _ => false
  end.

Definition runsInFlight (m : Machine) : nat :=
  length (filter (λ t, isProcessing t = true) (pending m)).

(** ** The vocabulary of the properties *)

(** *** Reading a trace *)

Definition dispatchOf (e : Event) : option (Pipeline * list Disc) :=
  match e with
  | RipQueue items => Some (RipPipeline, items)
  | BackupQueue items => Some (BackupPipeline, items)
  | _ => None
  end.

(** The pipeline calls of a trace, in order. *)
Definition dispatches (tr : list Event) : list (Pipeline * list Disc) :=
  omap dispatchOf tr.

Definition enrichmentOf (e : Event) : option (list Disc) :=
  match e with
  | Enrich discs => Some discs
  | _ => None
  end.

(** The enrichment calls of a trace, in order. *)
Definition enrichments (tr : list Event) : list (list Disc) :=
  omap enrichmentOf tr.



(** *** Snapshots and batches *)

(** The title of the last record of [l] for drive [d]: what a map filled by
    [l.forEach(x => map.set(x.driveNumber, x.title))] holds for [d]. *)
Fixpoint lastTitle (d : N) (l : list Disc) : option string :=
  match l with
  | [] => None
  | x :: rest =>
      match lastTitle d rest with
      | Some t => Some t
      | None => if decide (driveNumber x = d) then Some (title x) else None
      end
  end.

(** No drive is reported under two titles. *)
Definition oneTitlePerDrive (l : list Disc) : Prop :=
  ∀ x y, x ∈ l → y ∈ l → driveNumber x = driveNumber y → title x = title y.

(** Modelled from the spec: [DiscService.getCompleteDiscInfo] is not among
    the sources.  By the inventory interface of the specification,
    enrichment returns the records it was given, in order, each with its
    drive and title (and file info added). *)
Definition enrichedFrom (discs items : list Disc) : Prop :=
  Forall2
    (λ disc item,
       driveNumber item = driveNumber disc ∧ title item = title disc)
    discs items.


(** *** Invariants *)

(** [pollInterval] is null and no timer is live, or it is the handle of the
    one live timer; handles are not reused. *)
Definition timerInv (s : Service) (h : Host) : Prop :=
  dom (liveTimers h) =
    match pollInterval s with
    | Some t => {[t]}
    | None => ∅
    end ∧
  map_Forall (λ t _, t < nextHandle h) (liveTimers h).

Global Instance timerInv_dec (s : Service) (h : Host) :
  Decision (timerInv s h).
Proof. unfold timerInv. apply _. Defined.

(** What the two gate flags say about the suspended callbacks: none is
    suspended and both flags are clear; or exactly one is, [isChecking] is
    set, and [currentOperation] is set exactly when that callback waits
    for the pipeline. *)
Definition gateInv (m : Machine) : Prop :=
  match pending m with
  | [] =>
      isChecking (service m) = false ∧ currentOperation (service m) = None
  | [AwaitPipeline _] =>
      isChecking (service m) = true ∧
      currentOperation (service m) = Some "processing"%string
  | [_] =>
      isChecking (service m) = true ∧ currentOperation (service m) = None
  | _ => False
  end.

(** *** Sample data *)

(** Discs as detected, and as enriched. *)
Definition rawA : Disc := mkDisc 1 "Movie A" None.
Definition rawB : Disc := mkDisc 1 "Movie B" None.
Definition rawC : Disc := mkDisc 2 "Movie C" None.
Definition fullA : Disc := mkDisc 1 "Movie A" (Some "title_t00.mkv").
Definition fullB : Disc := mkDisc 1 "Movie B" (Some "title_t00.mkv").
Definition fullC : Disc := mkDisc 2 "Movie C" (Some "title_t00.mkv").

Definition cfgRip : AppConfig := mkConfig 5 (JsString "rip").
Definition cfgBackup : AppConfig := mkConfig 5 (JsString "backup").

Definition addFileInfo (d : Disc) : Disc :=
  mkDisc (driveNumber d) (title d) (Some "title_t00.mkv"%string).

(** An inventory that sees [seen] and enriches every record it is given,
    and pipelines that settle as [o]. *)
Definition inventory (seen : list Disc) (o : Outcome unit) : Collaborators :=
  {| importDiscService := Returned ();
     detectAvailableDiscs := Returned seen;
     getCompleteDiscInfo := λ l, Returned (addFileInfo <$> l);
     processRippingQueue := λ _, o;
     processBackupQueue := λ _, o |}.

(** An inventory whose detection call raises [e]. *)
Definition detectFails (e : JsError) : Collaborators :=
  {| importDiscService := Returned ();
     detectAvailableDiscs := Raised e;
     getCompleteDiscInfo := λ l, Returned (addFileInfo <$> l);
     processRippingQueue := λ _, Returned ();
     processBackupQueue := λ _, Returned () |}.

Definition boom : JsError := mkError (Some "queue failed"%string).
Definition busy : JsError := mkError (Some "MakeMKV is busy"%string).

(** A service that has processed "Movie A" in drive 1. *)
Definition trackedA : Service :=
  set_processedDiscs {[1%N := "Movie A"%string]} constructor.

(** [start()], then one tick. *)
Definition scanUnderWay : list Action := [CallStart; TimerFires 1].

(** The state after [scanUnderWay]: the callback is suspended at the
    dynamic import. *)
Definition midScan : Machine :=
  {| service :=
       {| isPolling := true; pollInterval := Some 1; processedDiscs := ∅;
          currentOperation := None; isChecking := true |};
     host := {| liveTimers := {[1 := number 5000]}; nextHandle := 2 |};
     pending := [AwaitImport];
     emitted := [Log Info MsgStarting;
                 Log Info (MsgPollingStarted 5000);
                 Emit "scanning"; Import] |}.

(** [start()], a tick that finds "Movie A" and dispatches it, and [stop()]
    while the pipeline call is awaited; then the call settles. *)
Definition stopWhileProcessing : list Action :=
  [CallStart; TimerFires 1;
   Settles 0 (ImportSettled (Returned ()));
   Settles 0 (DetectSettled (Returned [rawA]));
   Settles 0 (EnrichSettled (Returned [fullA]));
   CallStop;
   Settles 0 (PipelineSettled (Returned ()))].

(** *** Polling, status events and restarts *)

(** The period of the poll timer: the configured interval times 1000, as
    the host's timer takes it. *)
Definition pollPeriod (cfg : AppConfig) : Double :=
  timerDelay (jsTimes (autoRipPollInterval cfg) (number 1000)).

(** [isPolling] and the poll timer go together: the service polls and the
    one live timer, of period [pollPeriod], is the one [pollInterval] refers
    to; or it does not poll and no timer is live. *)
Definition pollingInv (cfg : AppConfig) (s : Service) (h : Host) : Prop :=
  match pollInterval s with
  | Some t => isPolling s = true ∧ liveTimers h = {[t := pollPeriod cfg]}
  | None => isPolling s = false ∧ liveTimers h = ∅
  end.

Definition statusOf (e : Event) : option string :=
  match e with
  | Emit state => Some state
  | _ => None
  end.

(** The status events of a trace, in order. *)
Definition statusEvents (tr : list Event) : list string := omap statusOf tr.

Definition isDispatch (e : Event) : bool :=
  match e with
  | RipQueue _ | BackupQueue _ => true
  | _ => false
  end.

(** Reading a trace from left to right: [expectCall] says that the event
    just read was the status ["processing"].  The trace is accepted when
    every ["processing"] status is directly followed by a pipeline call and
    a pipeline call occurs nowhere else. *)
Fixpoint announcedFrom (expectCall : bool) (tr : list Event) : bool :=
  match tr with
  | [] => negb expectCall
  | e :: rest =>
      if expectCall then isDispatch e && announcedFrom false rest
      else if decide (e = Emit "processing") then announcedFrom true rest
      else negb (isDispatch e) && announcedFrom false rest
  end.

(** [needle] occurs in [hay]. *)
Definition occursIn (needle hay : string) : Prop :=
  ∃ pre post, hay = pre +:+ needle +:+ post.

(** The machine after [start()] on a fresh service. *)
Definition justStarted : Machine :=
  {| service :=
       {| isPolling := true; pollInterval := Some 1; processedDiscs := ∅;
          currentOperation := None; isChecking := false |};
     host := {| liveTimers := {[1 := number 5000]}; nextHandle := 2 |};
     pending := [];
     emitted := [Log Info MsgStarting;
                 Log Info (MsgPollingStarted 5000);
                 Emit "scanning"] |}.



(** An inventory that sees [seen] and whose enrichment settles as [o]. *)
Definition enrichmentSettles (seen : list Disc) (o : Outcome (list Disc))
  : Collaborators :=
  {| importDiscService := Returned ();
     detectAvailableDiscs := Returned seen;
     getCompleteDiscInfo := λ _, o;
     processRippingQueue := λ _, Returned ();
     processBackupQueue := λ _, Returned () |}.

(** The machine after [stopWhileProcessing]. *)
Definition stoppedAfterRip : Machine :=
  default initial (run cfgRip stopWhileProcessing initial).

Definition isCall (e : Event) : bool :=
  match e with
  | Import | Detect | Enrich _ | RipQueue _ | BackupQueue _ => true
  | _ => false
  end.

(** The collaborator calls of a trace, in order. *)
Definition callsOf (tr : list Event) : list Event :=
  filter (λ e, isCall e = true) tr.

(** A machine whose one callback, on a service that has processed
    "Movie A", waits for the detection call. *)
Definition awaitingDetect : Machine :=
  {| service := set_isChecking true trackedA;
     host := {| liveTimers := {[1 := number 5000]}; nextHandle := 2 |};
     pending := [AwaitDetect];
     emitted := [Import; Detect] |}.



(** * Properties *)

(** ** The two maps built by [forEach ... set] *)

Lemma lookup_markProcessed (l : list Disc) (m : gmap N string) (d : N) :
  markProcessed l m !! d = from_option Some (m !! d) (lastTitle d l).
Proof.
  revert m. induction l as [|x rest IH]; intros m; [done|].
  change (markProcessed (x :: rest) m)
    with (markProcessed rest (<[driveNumber x := title x]> m)).
  rewrite IH. simpl. destruct (lastTitle d rest) as [t|]; [done|].
  simpl. rewrite lookup_insert. by destruct (decide (driveNumber x = d)).
Qed.

Lemma lookup_detectedDriveMapOf (l : list Disc) (d : N) :
  detectedDriveMapOf l !! d = lastTitle d l.
Proof.
  change (detectedDriveMapOf l) with (markProcessed l ∅).
  rewrite lookup_markProcessed, lookup_empty.
  by destruct (lastTitle d l).
Qed.

Lemma lastTitle_None (d : N) (l : list Disc) :
  lastTitle d l = None ↔ ∀ x, x ∈ l → driveNumber x ≠ d.
Proof.
  induction l as [|x rest IH]; simpl.
  - split; [intros _ y Hy; by apply elem_of_nil in Hy | done].
  - destruct (lastTitle d rest) as [t|] eqn:E.
    + split; [done|]. intros H. exfalso.
      assert (∀ y, y ∈ rest → driveNumber y ≠ d) as H'
        by (intros y Hy; apply H; by right).
      apply IH in H'. done.
    + destruct (decide (driveNumber x = d)) as [Hd|Hd].
      * split; [done|]. intros H. exfalso. apply (H x); [by left | done].
      * split; [|done]. intros _ y Hy.
        apply elem_of_cons in Hy as [->|Hy]; [done|].
        by apply IH.
Qed.

Lemma lastTitle_Some_elem (d : N) (l : list Disc) (t : string) :
  lastTitle d l = Some t → ∃ x, x ∈ l ∧ driveNumber x = d ∧ title x = t.
Proof.
  induction l as [|x rest IH]; simpl; [done|].
  destruct (lastTitle d rest) as [t'|].
  - intros [= ->]. destruct IH as (y & Hy & ?); [done|].
    exists y. split; [by right | done].
  - destruct (decide (driveNumber x = d)); [|done].
    intros [= <-]. exists x. split; [by left | done].
Qed.

Lemma lastTitle_oneTitlePerDrive (l : list Disc) (x : Disc) :
  oneTitlePerDrive l → x ∈ l → lastTitle (driveNumber x) l = Some (title x).
Proof.
  intros Hone Hx.
  destruct (lastTitle (driveNumber x) l) as [t|] eqn:E.
  - apply lastTitle_Some_elem in E as (y & Hy & Hd & <-).
    f_equal. by apply Hone.
  - exfalso. eapply lastTitle_None in E; [|exact Hx]. done.
Qed.

Lemma NoDup_oneTitlePerDrive (l : list Disc) :
  NoDup (driveNumber <$> l) → oneTitlePerDrive l.
Proof.
  intros Hnd x y Hx Hy Hd.
  apply list_elem_of_lookup in Hx as [i Hi].
  apply list_elem_of_lookup in Hy as [j Hj].
  assert (i = j) as ->; [|congruence].
  eapply NoDup_lookup; [exact Hnd| |].
  - rewrite list_lookup_fmap, Hi. reflexivity.
  - rewrite list_lookup_fmap, Hj. simpl. by rewrite Hd.
Qed.

(** ** The cleanup loop *)

Lemma lookup_cleanup_from (dm init m : gmap N string) (d : N) :
  map_fold
    (λ drive t acc,
       if decide (dm !! drive = Some t) then acc else delete drive acc)
    init m !! d =
  match m !! d with
  | Some t => if decide (dm !! d = Some t) then init !! d else None
  | None => init !! d
  end.
Proof.
  revert d.
  apply (map_fold_weak_ind (λ (r m' : gmap N string), ∀ d,
    r !! d =
    match m' !! d with
    | Some t => if decide (dm !! d = Some t) then init !! d else None
    | None => init !! d
    end)).
  - intros d. by rewrite lookup_empty.
  - intros i x m' r Hi IH d.
    destruct (decide (i = d)) as [->|Hne].
    + rewrite lookup_insert_eq.
      destruct (decide (dm !! d = Some x)).
      * by rewrite IH, Hi.
      * apply lookup_delete_eq.
    + rewrite lookup_insert_ne by done.
      destruct (decide (dm !! i = Some x)); [apply IH|].
      rewrite lookup_delete_ne by done. apply IH.
Qed.

Lemma lookup_cleanup (dm pd : gmap N string) (d : N) :
  cleanup dm pd !! d =
  match pd !! d with
  | Some t => if decide (dm !! d = Some t) then Some t else None
  | None => None
  end.
Proof.
  unfold cleanup. rewrite lookup_cleanup_from.
  destruct (pd !! d) as [t|] eqn:E; [|done].
  by destruct (decide (dm !! d = Some t)).
Qed.

Lemma elem_of_newDiscsOf (l : list Disc) (pd : gmap N string) (x : Disc) :
  x ∈ newDiscsOf l pd ↔ pd !! driveNumber x = None ∧ x ∈ l.
Proof. unfold newDiscsOf. by rewrite list_elem_of_filter. Qed.

(** ** Traces *)

Lemma dispatches_app (a b : list Event) :
  dispatches (a ++ b) = dispatches a ++ dispatches b.
Proof. apply omap_app. Qed.

Lemma enrichments_app (a b : list Event) :
  enrichments (a ++ b) = enrichments a ++ enrichments b.
Proof. apply omap_app. Qed.


(** The [catch] block of [checkDrives] logs nothing or one warning. *)
Lemma scanCatch_cases (e : JsError) :
  scanCatch e = [] ∨ ∃ m, scanCatch e = [Log Warning (MsgPollingWarning m)].
Proof.
  unfold scanCatch, catchBlock.
  destruct e as [[m|]| | |[|rendered|thrown]]; simpl; try (by left);
    try (right; by eexists).
  destruct (negb (bool_decide (m = EmptyString)) &&
            negb (includes "executable not found" m));
    simpl; [right; by eexists | by left].
Qed.

Lemma dispatches_scanCatch (e : JsError) : dispatches (scanCatch e) = [].
Proof.
  by destruct (scanCatch_cases e) as [->|[m ->]].
Qed.

Lemma enrichments_scanCatch (e : JsError) : enrichments (scanCatch e) = [].
Proof.
  by destruct (scanCatch_cases e) as [->|[m ->]].
Qed.

(** ** processDiscs *)

Lemma processDiscs_nonempty (cfg : AppConfig) (c : Collaborators)
  (items : list Disc) (s : Service) :
  items ≠ [] →
  processDiscs cfg c (Some items) s =
  (set_currentOperation None
     (set_processedDiscs (markProcessed items (processedDiscs s))
        (set_currentOperation (Some "processing"%string) s)),
   [Emit "processing"; callPipeline (selectPipeline cfg) items] ++
   match pipelineOutcome c (selectPipeline cfg) items with
   | Returned _ => []
   | Raised e => [Log Error (MsgProcessingFailed e)]
   end ++ [Emit "scanning"]).
Proof. destruct items; [done|]. reflexivity. Qed.

Lemma dispatches_processDiscs (cfg : AppConfig) (c : Collaborators)
  (items : list Disc) (s : Service) :
  items ≠ [] →
  dispatches (processDiscs cfg c (Some items) s).2 =
  [(selectPipeline cfg, items)].
Proof.
  intros H. rewrite processDiscs_nonempty by done. simpl.
  destruct (selectPipeline cfg), (pipelineOutcome _ _ _); reflexivity.
Qed.

(** C8. Called with null, undefined ([None]) or an empty batch,
    [processDiscs] returns at once: the service (tracker and
    [currentOperation] included) is as it was, and nothing is emitted,
    logged or called; it does not reach the processing phase. *)
Theorem processDiscs_empty_noop (cfg : AppConfig) (c : Collaborators)
  (s : Service) :
  processDiscs cfg c None s = (s, []) ∧
  processDiscs cfg c (Some []) s = (s, []) ∧
  processDiscs_enter cfg None s = None ∧
  processDiscs_enter cfg (Some []) s = None.
Proof. repeat split. Qed.

(** C7. For a non-empty batch, mode ["rip"] makes exactly one pipeline
    call, to the rip entry point with the batch, and none to the backup
    one; mode ["backup"] makes exactly one, to the backup entry point, and
    none to the rip one. *)
Theorem mode_routing (cfg : AppConfig) (c : Collaborators)
  (items : list Disc) (s : Service) :
  items ≠ [] →
  (autoRipMode cfg = JsString "rip" →
   dispatches (processDiscs cfg c (Some items) s).2 = [(RipPipeline, items)] ∧
   RipQueue items ∈ (processDiscs cfg c (Some items) s).2 ∧
   ∀ b, BackupQueue b ∉ (processDiscs cfg c (Some items) s).2) ∧
  (autoRipMode cfg = JsString "backup" →
   dispatches (processDiscs cfg c (Some items) s).2 =
     [(BackupPipeline, items)] ∧
   BackupQueue items ∈ (processDiscs cfg c (Some items) s).2 ∧
   ∀ b, RipQueue b ∉ (processDiscs cfg c (Some items) s).2).
Proof.
  intros Hne.
  assert (∀ p b, callPipeline p b ∈ (processDiscs cfg c (Some items) s).2 →
            (p, b) ∈ dispatches (processDiscs cfg c (Some items) s).2) as Hin.
  { intros p b Hb. unfold dispatches. apply list_elem_of_omap.
    exists (callPipeline p b). split; [done | by destruct p]. }
  assert (callPipeline (selectPipeline cfg) items
          ∈ (processDiscs cfg c (Some items) s).2) as Hcall.
  { rewrite processDiscs_nonempty by done. simpl. right. left. }
  pose proof (dispatches_processDiscs cfg c items s Hne) as Hd.
  split; intros Hmode.
  - assert (selectPipeline cfg = RipPipeline) as Hsel
      by (unfold selectPipeline; by rewrite Hmode).
    rewrite Hsel in Hd, Hcall. split; [done|]. split; [done|].
    intros b Hb. apply (Hin BackupPipeline) in Hb. rewrite Hd in Hb.
    apply list_elem_of_singleton in Hb. discriminate.
  - assert (selectPipeline cfg = BackupPipeline) as Hsel
      by (unfold selectPipeline; by rewrite Hmode).
    rewrite Hsel in Hd, Hcall. split; [done|]. split; [done|].
    intros b Hb. apply (Hin RipPipeline) in Hb. rewrite Hd in Hb.
    apply list_elem_of_singleton in Hb. discriminate.
Qed.

Lemma mode_routing_witness :
  dispatches (processDiscs cfgRip (inventory [] (Returned ())) (Some [fullA])
                constructor).2 = [(RipPipeline, [fullA])] ∧
  dispatches (processDiscs cfgBackup (inventory [] (Returned ()))
                (Some [fullA]) constructor).2 = [(BackupPipeline, [fullA])].
Proof.
  split.
  - apply (mode_routing cfgRip (inventory [] (Returned ())) [fullA]
             constructor); [discriminate | reflexivity].
  - apply (mode_routing cfgBackup (inventory [] (Returned ())) [fullA]
             constructor); [discriminate | reflexivity].
Defined.

(** C10. For a non-empty batch, the one pipeline call goes to the backup
    entry point exactly when the mode value is the string ["backup"], and to
    the rip entry point exactly when it is anything else (another string, a
    misspelling, undefined, null, a boolean, a number).  No mode value is
    rejected: whatever it is, the run goes through the same steps, with
    exactly one pipeline call on the whole batch between the status
    ["processing"] and the terminal step. *)
Theorem rip_is_default (cfg : AppConfig) (c : Collaborators)
  (items : list Disc) (s : Service) :
  items ≠ [] →
  (autoRipMode cfg = JsString "backup" ↔
   dispatches (processDiscs cfg c (Some items) s).2 =
     [(BackupPipeline, items)]) ∧
  (autoRipMode cfg ≠ JsString "backup" ↔
   dispatches (processDiscs cfg c (Some items) s).2 =
     [(RipPipeline, items)]) ∧
  (autoRipMode cfg = JsString "backup" →
   ∃ post, (processDiscs cfg c (Some items) s).2 =
           [Emit "processing"; BackupQueue items] ++ post ∧
           dispatches post = []) ∧
  (autoRipMode cfg ≠ JsString "backup" →
   ∃ post, (processDiscs cfg c (Some items) s).2 =
           [Emit "processing"; RipQueue items] ++ post ∧
           dispatches post = []) ∧
  length (dispatches (processDiscs cfg c (Some items) s).2) = 1.
Proof.
  intros Hne. rewrite dispatches_processDiscs by done.
  assert (∃ post,
            (processDiscs cfg c (Some items) s).2 =
            [Emit "processing"; callPipeline (selectPipeline cfg) items]
              ++ post ∧
            dispatches post = []) as (post & Htr & Hpost).
  { unfold processDiscs, processDiscs_enter, processDiscs_leave.
    destruct items as [|it items]; [done|]. cbn [fst snd].
    eexists. split; [reflexivity|].
    by destruct (pipelineOutcome c (selectPipeline cfg) (it :: items)). }
  assert (selectPipeline cfg = BackupPipeline ↔
          autoRipMode cfg = JsString "backup") as Hsel.
  { unfold selectPipeline, strictEqString.
    destruct (autoRipMode cfg) as [| |b|z|m]; try (split; done).
    destruct (bool_decide_reflect (m = "backup"%string)) as [->|Hm];
      [done|]. split; [done|]. by intros [= ->]. }
  split_and!; try done.
  - split.
    + intros Hm. apply Hsel in Hm. by rewrite Hm.
    + intros [= Hm]. by apply Hsel.
  - split.
    + intros Hm. destruct (selectPipeline cfg) eqn:Hp; [done|].
      destruct Hm. by apply Hsel.
    + intros [= Hp] Hm. apply Hsel in Hm. by rewrite Hm in Hp.
  - intros Hm. apply Hsel in Hm.
    exists post. rewrite Hm in Htr. eauto.
  - intros Hm. destruct (selectPipeline cfg) eqn:Hp.
    + exists post. eauto.
    + destruct Hm. by apply Hsel.
Qed.

Lemma rip_is_default_witness :
  dispatches (processDiscs (mkConfig 5 (JsString "bakcup"))
                (inventory [] (Returned ())) (Some [fullA]) constructor).2 =
    [(RipPipeline, [fullA])] ∧
  dispatches (processDiscs (mkConfig 5 JsUndefined)
                (inventory [] (Returned ())) (Some [fullA]) constructor).2 =
    [(RipPipeline, [fullA])] ∧
  dispatches (processDiscs (mkConfig 5 (JsString "backup"))
                (inventory [] (Returned ())) (Some [fullA]) constructor).2 =
    [(BackupPipeline, [fullA])].
Proof.
  split; [|split].
  - apply (rip_is_default (mkConfig 5 (JsString "bakcup"))
             (inventory [] (Returned ())) [fullA] constructor);
      discriminate.
  - apply (rip_is_default (mkConfig 5 JsUndefined)
             (inventory [] (Returned ())) [fullA] constructor);
      discriminate.
  - apply (rip_is_default (mkConfig 5 (JsString "backup"))
             (inventory [] (Returned ())) [fullA] constructor);
      [discriminate | reflexivity].
Defined.

(** C5, as the code has it. For a non-empty batch and whatever the
    pipeline call does (returns or raises), [processDiscs] ends by setting
    [currentOperation] back to null and then publishing the status
    ["scanning"]: that event is the last thing it does, and it is published
    whether or not polling is still active.  The run leaves [isPolling],
    the timer handle and [isChecking] as they were, so a failed run does
    not stop polling. *)
Theorem processDiscs_terminal (cfg : AppConfig) (c : Collaborators)
  (items : list Disc) (s : Service) :
  items ≠ [] →
  currentOperation (processDiscs cfg c (Some items) s).1 = None ∧
  last (processDiscs cfg c (Some items) s).2 = Some (Emit "scanning") ∧
  (∃ s1 ev1,
     processDiscs_enter cfg (Some items) s = Some (s1, ev1, items) ∧
     currentOperation s1 = Some "processing"%string ∧
     ∀ o, currentOperation (processDiscs_leave o s1).1 = None ∧
          last (processDiscs_leave o s1).2 = Some (Emit "scanning")) ∧
  isPolling (processDiscs cfg c (Some items) s).1 = isPolling s ∧
  pollInterval (processDiscs cfg c (Some items) s).1 = pollInterval s ∧
  isChecking (processDiscs cfg c (Some items) s).1 = isChecking s.
Proof.
  intros Hne. rewrite processDiscs_nonempty by done. simpl.
  split; [done|]. split.
  { by destruct (pipelineOutcome c (selectPipeline cfg) items). }
  split; [|done].
  destruct items as [|it rest]; [done|].
  eexists _, _. split; [reflexivity|]. split; [done|].
  intros [u|e]; by split.
Qed.

Lemma processDiscs_terminal_witness :
  currentOperation
    (processDiscs cfgRip (inventory [] (Raised boom)) (Some [fullA])
       constructor).1 = None ∧
  last (processDiscs cfgRip (inventory [] (Raised boom)) (Some [fullA])
          constructor).2 = Some (Emit "scanning").
Proof.
  pose proof (processDiscs_terminal cfgRip (inventory [] (Raised boom))
                [fullA] constructor) as H.
  destruct H as (H1 & H2 & _); [discriminate|].
  split; [exact H1 | exact H2].
Defined.

(** C5 as stated fails: [processDiscs] publishes ["scanning"] on a service
    that is not polling.  Called on a fresh service ([isPolling] false) it
    ends with that event; and through the public surface, when [stop()] is
    called while the pipeline call is awaited, the stopped service
    publishes ["scanning"] after ["idle"] once the call settles. *)
Lemma scanning_published_when_not_polling :
  (isPolling constructor = false ∧
   (processDiscs cfgRip (inventory [] (Returned ())) (Some [fullA])
      constructor).2 =
   [Emit "processing"; RipQueue [fullA]; Emit "scanning"]) ∧
  (isPolling ∘ service <$> run cfgRip stopWhileProcessing initial
   = Some false ∧
   emitted <$> run cfgRip stopWhileProcessing initial =
   Some [Log Info MsgStarting; Log Info (MsgPollingStarted 5000);
         Emit "scanning"; Import; Detect; Log Info (MsgDetected 1);
         Enrich [rawA]; Log Info (MsgStartingProcessing 1);
         Emit "processing"; RipQueue [fullA];
         Log Info MsgStopping; Emit "idle"; Emit "scanning"]).
Proof. repeat split; vm_compute; reflexivity. Qed.

(** ** The poll timer *)

Lemma timerInv_size (s : Service) (h : Host) :
  timerInv s h → size (liveTimers h) ≤ 1.
Proof.
  intros [Hd _]. rewrite <- size_dom, Hd.
  destruct (pollInterval s).
  - rewrite size_singleton. lia.
  - rewrite size_empty. lia.
Qed.

Lemma stopPolling_spec (s : Service) (h : Host) :
  timerInv s h →
  pollInterval (stopPolling s h).1 = None ∧
  liveTimers (stopPolling s h).2 = ∅ ∧
  nextHandle (stopPolling s h).2 = nextHandle h ∧
  timerInv (stopPolling s h).1 (stopPolling s h).2.
Proof.
  intros [Hd Hlt]. unfold stopPolling, timerInv.
  destruct (pollInterval s) as [t|] eqn:E; simpl.
  - assert (delete t (liveTimers h) = ∅) as ->.
    { apply dom_empty_iff_L. rewrite dom_delete_L, Hd.
      apply difference_diag_L. }
    rewrite dom_empty_L. split_and!; done || apply map_Forall_empty.
  - apply dom_empty_iff_L in Hd. rewrite E, Hd, dom_empty_L.
    split_and!; done || apply map_Forall_empty.
Qed.

Lemma startPolling_spec (cfg : AppConfig) (s : Service) (h : Host) :
  timerInv s h →
  pollInterval (startPolling cfg s h).1.1 = Some (nextHandle h) ∧
  liveTimers (startPolling cfg s h).1.2 =
    {[nextHandle h :=
        timerDelay (jsTimes (autoRipPollInterval cfg) (number 1000))]} ∧
  nextHandle (startPolling cfg s h).1.2 = S (nextHandle h) ∧
  timerInv (startPolling cfg s h).1.1 (startPolling cfg s h).1.2.
Proof.
  intros Hinv.
  destruct (stopPolling_spec s h Hinv) as (Hp & Hl & Hn & _).
  unfold startPolling, timerInv.
  destruct (stopPolling s h) as [s1 h1] eqn:E. simpl in *.
  rewrite Hl, Hn, insert_empty, dom_singleton_L.
  split_and!; done || (apply map_Forall_singleton; lia).
Qed.

(** C9. If [pollInterval] is null with no live timer, or is the handle of
    the only live timer, then this is so again after each of
    [stopPolling], [startPolling], [start] and [stop], and at most one
    timer is live before and after.  [stopPolling] leaves the handle null
    and no timer live.  [startPolling] first stops: when it creates its
    timer none is live, so afterwards the new timer is the only one, the
    handle refers to it, and a timer that was live before is cancelled. *)
Theorem single_timer_invariant (cfg : AppConfig) (s : Service) (h : Host) :
  timerInv s h →
  size (liveTimers h) ≤ 1 ∧
  (timerInv (stopPolling s h).1 (stopPolling s h).2 ∧
   pollInterval (stopPolling s h).1 = None ∧
   liveTimers (stopPolling s h).2 = ∅) ∧
  (timerInv (startPolling cfg s h).1.1 (startPolling cfg s h).1.2 ∧
   liveTimers (stopPolling s h).2 = ∅ ∧
   (∃ t, pollInterval (startPolling cfg s h).1.1 = Some t ∧
         dom (liveTimers (startPolling cfg s h).1.2) = {[t]} ∧
         ∀ t0, pollInterval s = Some t0 →
               liveTimers (startPolling cfg s h).1.2 !! t0 = None) ∧
   size (liveTimers (startPolling cfg s h).1.2) ≤ 1) ∧
  (timerInv (start cfg s h).1.1 (start cfg s h).1.2 ∧
   size (liveTimers (start cfg s h).1.2) ≤ 1) ∧
  (timerInv (stop s h).1.1 (stop s h).1.2 ∧
   size (liveTimers (stop s h).1.2) ≤ 1).
Proof.
  intros Hinv.
  pose proof (stopPolling_spec s h Hinv) as (Hp & Hl & Hn & Hstop).
  pose proof (startPolling_spec cfg s h Hinv) as (Hsp & Hsl & _ & Hstart).
  split; [by eapply timerInv_size|].
  split; [done|].
  split.
  { split; [done|]. split; [done|]. split; [|by eapply timerInv_size].
    exists (nextHandle h). split; [done|].
    split; [by rewrite Hsl, dom_singleton_L|].
    intros t0 Ht0. rewrite Hsl. apply lookup_singleton_ne.
    destruct Hinv as [Hd Hlt]. rewrite Ht0 in Hd.
    assert (is_Some (liveTimers h !! t0)) as [ms Hms].
    { apply elem_of_dom. rewrite Hd. by apply elem_of_singleton. }
    apply Hlt in Hms. simpl in Hms. lia. }
  split.
  - assert (timerInv (start cfg s h).1.1 (start cfg s h).1.2) as H.
    { unfold start. destruct (isPolling s); [done|].
      assert (timerInv (set_isPolling true s) h) as Hinv' by done.
      pose proof (startPolling_spec cfg _ h Hinv') as (_ & _ & _ & H).
      by destruct (startPolling cfg (set_isPolling true s) h) as [[s1 h1] ev]. }
    split; [done | by eapply timerInv_size].
  - assert (timerInv (stop s h).1.1 (stop s h).1.2) as H.
    { unfold stop. destruct (isPolling s); [|done]. simpl.
      assert (timerInv (set_isPolling false s) h) as Hinv' by done.
      pose proof (stopPolling_spec _ h Hinv') as (_ & _ & _ & H).
      by destruct (stopPolling (set_isPolling false s) h) as [s1 h1]. }
    split; [done | by eapply timerInv_size].
Qed.

Lemma single_timer_invariant_witness :
  timerInv (start cfgRip constructor (host initial)).1.1
           (start cfgRip constructor (host initial)).1.2 ∧
  pollInterval
    (startPolling cfgRip (start cfgRip constructor (host initial)).1.1
       (start cfgRip constructor (host initial)).1.2).1.1 = Some 2 ∧
  liveTimers
    (startPolling cfgRip (start cfgRip constructor (host initial)).1.1
       (start cfgRip constructor (host initial)).1.2).1.2 !! 1 = None.
Proof.
  assert (timerInv (start cfgRip constructor (host initial)).1.1
                   (start cfgRip constructor (host initial)).1.2) as Hinv.
  { apply (bool_decide_unpack _ (dec := timerInv_dec _ _)).
    vm_compute. exact I. }
  split; [exact Hinv|].
  pose proof (single_timer_invariant cfgRip _ _ Hinv) as H.
  split; [vm_compute; reflexivity|].
  destruct H as (_ & _ & (_ & _ & (t & _ & _ & Hold) & _) & _).
  apply Hold. vm_compute. reflexivity.
Defined.

(** ** The gate *)

Lemma start_gate (cfg : AppConfig) (s : Service) (h : Host) :
  isChecking (start cfg s h).1.1 = isChecking s ∧
  currentOperation (start cfg s h).1.1 = currentOperation s ∧
  processedDiscs (start cfg s h).1.1 = processedDiscs s.
Proof.
  unfold start, startPolling, stopPolling.
  destruct (isPolling s); [done|]. simpl.
  by destruct (pollInterval s).
Qed.

Lemma stop_gate (s : Service) (h : Host) :
  isChecking (stop s h).1.1 = isChecking s ∧
  currentOperation (stop s h).1.1 = currentOperation s ∧
  processedDiscs (stop s h).1.1 = processedDiscs s.
Proof.
  unfold stop, stopPolling.
  destruct (isPolling s); [|done]. simpl.
  by destruct (pollInterval s).
Qed.

Lemma afterDetect_gate (detectedDiscs : list Disc) (s : Service) :
  isChecking (afterDetect detectedDiscs s).1.1 = isChecking s ∧
  currentOperation (afterDetect detectedDiscs s).1.1 = currentOperation s.
Proof. unfold afterDetect. by case_bool_decide. Qed.

Lemma gateInv_initial : gateInv initial.
Proof. by split. Qed.

Lemma gateInv_step (cfg : AppConfig) (a : Action) (m m' : Machine) :
  gateInv m → step cfg a m = Some m' → gateInv m'.
Proof.
  unfold gateInv. intros Hinv Hstep.
  destruct a as [| |t|i r]; simpl in Hstep.
  - pose proof (start_gate cfg (service m) (host m)) as (Hc & Ho & _).
    destruct (start cfg (service m) (host m)) as [[s h] ev].
    injection Hstep as <-. simpl in *. by rewrite Hc, Ho.
  - pose proof (stop_gate (service m) (host m)) as (Hc & Ho & _).
    destruct (stop (service m) (host m)) as [[s h] ev].
    injection Hstep as <-. simpl in *. by rewrite Hc, Ho.
  - destruct (liveTimers (host m) !! t); [|done].
    injection Hstep as <-. unfold timerCallback.
    destruct (truthy (currentOperation (service m)) || isChecking (service m))
      eqn:Hgate; [done|].
    apply orb_false_elim in Hgate as [_ Hchk]. simpl.
    destruct (pending m) as [|t0 [|t1 rest]]; [|exfalso..].
    + simpl. by destruct Hinv.
    + destruct t0; destruct Hinv; congruence.
    + by destruct t0.
  - destruct (pending m) as [|t0 [|t1 rest]] eqn:Hp;
      [done| |by destruct t0].
    destruct i as [|i]; [|done]. simpl in Hstep.
    destruct (resume cfg t0 r (service m)) as [[[s ev] next]|] eqn:Hres;
      [|done].
    injection Hstep as <-. simpl.
    destruct t0, r as [o|o|o|o]; simpl in Hres; try done;
      try (destruct o as [x|e]; injection Hres as <- <- <-;
           (done || by destruct Hinv)).
    + destruct o as [detected|e].
      * pose proof (afterDetect_gate detected (service m)) as (Hc & Ho).
        destruct (afterDetect detected (service m)) as [[s1 ev1] [nd|]];
          injection Hres as <- <- <-; simpl in *;
          destruct Hinv; split; congruence.
      * injection Hres as <- <- <-. by destruct Hinv.
    + destruct o as [[|it items]|e]; injection Hres as <- <- <-;
        by destruct Hinv.
Qed.

Lemma gateInv_run (cfg : AppConfig) (actions : list Action) (m m' : Machine) :
  gateInv m → run cfg actions m = Some m' → gateInv m'.
Proof.
  revert m. induction actions as [|a rest IH]; intros m Hinv; simpl.
  - by intros [= <-].
  - destruct (step cfg a m) as [m1|] eqn:Hstep; [|done].
    apply IH. by eapply gateInv_step.
Qed.

Lemma gateInv_reachable (cfg : AppConfig) (m : Machine) :
  reachable cfg m → gateInv m.
Proof. intros [actions Hrun]. eapply gateInv_run; [apply gateInv_initial|done]. Qed.

(** C4. In every reachable state where [isChecking] or [currentOperation]
    is set, a timer tick changes nothing at all: the state after the tick is
    the state before it, with no callback added to the suspended ones (the
    tick is dropped, not queued) and nothing emitted.  Hence in every
    reachable state at most one scan cycle and at most one processing run
    are in flight; a scan cycle is in flight exactly when [isChecking] is
    set, and a processing run exactly when [currentOperation] is. *)
Theorem non_overlap (cfg : AppConfig) (m : Machine) :
  reachable cfg m →
  (truthy (currentOperation (service m)) || isChecking (service m) = true →
   timerCallback m = m ∧
   ∀ t, is_Some (liveTimers (host m) !! t) →
        step cfg (TimerFires t) m = Some m) ∧
  scansInFlight m ≤ 1 ∧
  runsInFlight m ≤ 1 ∧
  (scansInFlight m = 1 ↔ isChecking (service m) = true) ∧
  (runsInFlight m = 1 ↔
   currentOperation (service m) = Some "processing"%string).
Proof.
  intros Hreach. apply gateInv_reachable in Hreach as Hinv.
  split.
  { intros Hgate.
    assert (timerCallback m = m) as Hdrop
      by (unfold timerCallback; by rewrite Hgate).
    split; [done|]. intros t [ms Ht]. simpl. by rewrite Ht, Hdrop. }
  unfold gateInv in Hinv. unfold scansInFlight, runsInFlight.
  destruct (pending m) as [|t0 [|t1 rest]].
  - destruct Hinv as [-> ->]. simpl. split_and!; try lia; split; done.
  - destruct t0; destruct Hinv as [-> ->]; simpl;
      split_and!; try lia; split; done.
  - by destruct t0.
Qed.

Lemma midScan_reachable : reachable cfgRip midScan.
Proof. exists scanUnderWay. vm_compute. reflexivity. Defined.

Lemma non_overlap_witness :
  scansInFlight midScan = 1 ∧
  step cfgRip (TimerFires 1) midScan = Some midScan.
Proof.
  split; [reflexivity|].
  destruct (non_overlap cfgRip midScan midScan_reachable) as (Hdrop & _).
  apply Hdrop; [reflexivity|]. vm_compute. eauto.
Defined.

(** ** The scan cycle *)

Lemma lastTitle_enrichedFrom (d : N) (discs items : list Disc) :
  enrichedFrom discs items → lastTitle d items = lastTitle d discs.
Proof.
  induction 1 as [|x it discs items [Hd Ht] _ IH]; [done|].
  simpl. by rewrite IH, Hd, Ht.
Qed.

Lemma lastTitle_newDiscsOf (d : N) (l : list Disc) (pd : gmap N string) :
  lastTitle d (newDiscsOf l pd) =
  if decide (pd !! d = None) then lastTitle d l else None.
Proof.
  unfold newDiscsOf. induction l as [|x rest IH].
  - by destruct (decide (pd !! d = None)).
  - rewrite filter_cons.
    destruct (decide (pd !! driveNumber x = None)) as [Hx|Hx]; simpl.
    + rewrite IH. destruct (decide (pd !! d = None)) as [Hd|Hd]; [done|].
      destruct (decide (driveNumber x = d)) as [<-|]; done.
    + rewrite IH. destruct (decide (pd !! d = None)) as [Hd|Hd]; [|done].
      destruct (lastTitle d rest); [done|].
      destruct (decide (driveNumber x = d)) as [<-|]; done.
Qed.

Lemma cleanup_agree (dm : gmap N string) : cleanup dm dm = dm.
Proof.
  apply map_eq. intros d. rewrite lookup_cleanup.
  destruct (dm !! d) as [t|]; [|done]. by rewrite decide_True.
Qed.

(** Marking the enriched new discs on the cleaned tracker gives the
    detected map itself. *)
Lemma markProcessed_enriched (detected items : list Disc)
  (pd : gmap N string) :
  enrichedFrom
    (newDiscsOf detected (cleanup (detectedDriveMapOf detected) pd)) items →
  markProcessed items (cleanup (detectedDriveMapOf detected) pd) =
  detectedDriveMapOf detected.
Proof.
  intros Henr. apply map_eq. intros d.
  rewrite lookup_markProcessed, (lastTitle_enrichedFrom _ _ _ Henr),
    lastTitle_newDiscsOf, lookup_cleanup.
  destruct (pd !! d) as [t|] eqn:E.
  - destruct (decide (detectedDriveMapOf detected !! d = Some t)) as [Hd|Hd].
    + by rewrite decide_False.
    + rewrite decide_True by done. rewrite lookup_detectedDriveMapOf.
      by destruct (lastTitle d detected).
  - rewrite decide_True by done. rewrite lookup_detectedDriveMapOf.
    by destruct (lastTitle d detected).
Qed.

Lemma newDiscsOf_detectedDriveMap (detected : list Disc) :
  newDiscsOf detected (detectedDriveMapOf detected) = [].
Proof.
  apply elem_of_nil_inv. intros x [Hnone Hx]%elem_of_newDiscsOf.
  rewrite lookup_detectedDriveMapOf in Hnone.
  eapply lastTitle_None in Hnone; [|exact Hx]. done.
Qed.

(** The shape of a scan cycle whose detection call returned. *)
Lemma checkDrives_detected (cfg : AppConfig) (c : Collaborators)
  (s : Service) (u : unit) (detected : list Disc) :
  importDiscService c = Returned u →
  detectAvailableDiscs c = Returned detected →
  let s1 :=
    set_processedDiscs
      (cleanup (detectedDriveMapOf detected) (processedDiscs s)) s in
  let newDiscs := newDiscsOf detected (processedDiscs s1) in
  checkDrives cfg c s =
  match newDiscs with
  | [] => (s1, [Import; Detect])
  | _ :: _ =>
      match getCompleteDiscInfo c newDiscs with
      | Raised e =>
          (s1,
           [Import; Detect; Log Info (MsgDetected (length newDiscs));
            Enrich newDiscs] ++ scanCatch e)
      | Returned items =>
          ((processDiscs cfg c (Some items) s1).1,
           [Import; Detect; Log Info (MsgDetected (length newDiscs));
            Enrich newDiscs;
            Log Info (MsgStartingProcessing (length items))] ++
           (processDiscs cfg c (Some items) s1).2)
      end
  end.
Proof.
  intros Hi Hd. unfold checkDrives, afterDetect. rewrite Hi, Hd. simpl.
  destruct (newDiscsOf detected
              (cleanup (detectedDriveMapOf detected) (processedDiscs s)))
    as [|x nd] eqn:E; [done|].
  simpl. destruct (getCompleteDiscInfo c (x :: nd)) as [items|e]; [|done].
  by destruct (processDiscs cfg c (Some items) _).
Qed.

Lemma dispatches_processDiscs_any (cfg : AppConfig) (c : Collaborators)
  (items : list Disc) (s : Service) :
  dispatches (processDiscs cfg c (Some items) s).2 =
  match items with
  | [] => []
  | _ :: _ => [(selectPipeline cfg, items)]
  end.
Proof.
  destruct items as [|it rest]; [done|].
  by apply dispatches_processDiscs.
Qed.

Lemma enrichments_processDiscs (cfg : AppConfig) (c : Collaborators)
  (arg : option (list Disc)) (s : Service) :
  enrichments (processDiscs cfg c arg s).2 = [].
Proof.
  destruct arg as [[|it rest]|]; try done.
  rewrite processDiscs_nonempty by done. simpl.
  destruct (selectPipeline cfg), (pipelineOutcome _ _ _); reflexivity.
Qed.

(** The enrichment and pipeline calls of a scan cycle: at most one
    enrichment call, for the new discs; at most one pipeline call, with
    what enrichment returned for them. *)
Lemma checkDrives_calls (cfg : AppConfig) (c : Collaborators) (s : Service)
  (detected : list Disc) :
  detectAvailableDiscs c = Returned detected →
  let newDiscs :=
    newDiscsOf detected
      (cleanup (detectedDriveMapOf detected) (processedDiscs s)) in
  (∀ batch, batch ∈ enrichments (checkDrives cfg c s).2 →
            batch = newDiscs) ∧
  (∀ p batch, (p, batch) ∈ dispatches (checkDrives cfg c s).2 →
              p = selectPipeline cfg ∧
              getCompleteDiscInfo c newDiscs = Returned batch).
Proof.
  intros Hd newDiscs.
  destruct (importDiscService c) as [u|e] eqn:Hi.
  - rewrite (checkDrives_detected cfg c s u detected Hi Hd). simpl.
    fold newDiscs. destruct newDiscs as [|x nd] eqn:E.
    { split; [intros b Hb | intros p b Hb]; by apply elem_of_nil in Hb. }
    destruct (getCompleteDiscInfo c (x :: nd)) as [items|e]; simpl.
    + split.
      * intros b. unfold enrichments. simpl. fold (enrichments
          (processDiscs cfg c (Some items)
             (set_processedDiscs
                (cleanup (detectedDriveMapOf detected) (processedDiscs s))
                s)).2).
        rewrite enrichments_processDiscs.
        by intros ->%list_elem_of_singleton.
      * intros p b. unfold dispatches. simpl. fold (dispatches
          (processDiscs cfg c (Some items)
             (set_processedDiscs
                (cleanup (detectedDriveMapOf detected) (processedDiscs s))
                s)).2).
        rewrite dispatches_processDiscs_any.
        destruct items as [|it rest]; [by intros ?%elem_of_nil|].
        by intros [= -> ->]%list_elem_of_singleton.
    + split.
      * intros b. unfold enrichments. simpl.
        fold (enrichments (scanCatch e)). rewrite enrichments_scanCatch.
        by intros ->%list_elem_of_singleton.
      * intros p b. unfold dispatches. simpl.
        fold (dispatches (scanCatch e)). rewrite dispatches_scanCatch.
        by intros ?%elem_of_nil.
  - unfold checkDrives. rewrite Hi. simpl.
    split.
    + intros b. unfold enrichments. simpl.
      fold (enrichments (scanCatch e)). rewrite enrichments_scanCatch.
      by intros ?%elem_of_nil.
    + intros p b. unfold dispatches. simpl.
      fold (dispatches (scanCatch e)). rewrite dispatches_scanCatch.
      by intros ?%elem_of_nil.
Qed.

Lemma detectedDriveMapOf_oneTitle (detected : list Disc) (d : Disc) :
  oneTitlePerDrive detected → d ∈ detected →
  detectedDriveMapOf detected !! driveNumber d = Some (title d).
Proof.
  intros Hone Hd. rewrite lookup_detectedDriveMapOf.
  by apply lastTitle_oneTitlePerDrive.
Qed.

(** If a detected disc's drive and title are the tracker's entry for that
    drive, and that title is also the one the snapshot's drive-to-title map
    holds for the drive, then the scan cycle passes no disc of that drive
    to enrichment, and any batch it hands to a pipeline is what enrichment
    returned for a list without that drive; so with an enrichment that
    returns the records it was given, no record of that drive is
    dispatched. *)
Lemma scan_keeps_entry (cfg : AppConfig) (c : Collaborators) (s : Service)
  (detected : list Disc) (d : Disc) :
  detectAvailableDiscs c = Returned detected →
  d ∈ detected →
  processedDiscs s !! driveNumber d = Some (title d) →
  detectedDriveMapOf detected !! driveNumber d = Some (title d) →
  (∀ batch, batch ∈ enrichments (checkDrives cfg c s).2 →
     ∀ x, x ∈ batch → driveNumber x ≠ driveNumber d) ∧
  (∀ p batch, (p, batch) ∈ dispatches (checkDrives cfg c s).2 →
     ∃ newDiscs, getCompleteDiscInfo c newDiscs = Returned batch ∧
                 ∀ x, x ∈ newDiscs → driveNumber x ≠ driveNumber d) ∧
  ((∀ l items, getCompleteDiscInfo c l = Returned items →
               enrichedFrom l items) →
   ∀ p batch, (p, batch) ∈ dispatches (checkDrives cfg c s).2 →
     ∀ item, item ∈ batch → driveNumber item ≠ driveNumber d).
Proof.
  intros Hdet Hd Hpd Hdm.
  destruct (checkDrives_calls cfg c s detected Hdet) as [Henr Hdis].
  set (newDiscs := newDiscsOf detected
         (cleanup (detectedDriveMapOf detected) (processedDiscs s))) in *.
  assert (∀ x, x ∈ newDiscs → driveNumber x ≠ driveNumber d) as Hnew.
  { intros x [Hnone _]%elem_of_newDiscsOf Heq.
    rewrite Heq, lookup_cleanup, Hpd, decide_True in Hnone; done. }
  split; [|split].
  - intros batch Hb. by rewrite (Henr batch Hb).
  - intros p batch Hb. exists newDiscs. split; [|done].
    by apply Hdis in Hb as [_ Hret].
  - intros Hfaithful p batch Hb item Hitem.
    apply Hdis in Hb as [_ Hret]. apply Hfaithful in Hret.
    apply list_elem_of_lookup in Hitem as [i Hi].
    destruct (Forall2_lookup_r _ _ _ _ _ Hret Hi) as (x & Hx & Hdr & _).
    rewrite Hdr. apply Hnew. apply list_elem_of_lookup. eauto.
Qed.

(** The snapshot's map holds the last title reported for a drive: were a
    snapshot to list drive 1 twice, as "Movie A" and then as "Movie B", the
    entry (1, "Movie A") would be purged and both records selected. *)
Lemma detectedDriveMap_last_record :
  rawA ∈ [rawA; rawB] ∧
  processedDiscs trackedA !! driveNumber rawA = Some (title rawA) ∧
  detectedDriveMapOf [rawA; rawB] !! 1%N = Some "Movie B"%string ∧
  enrichments
    (checkDrives cfgRip (inventory [rawA; rawB] (Returned ())) trackedA).2 =
  [[rawA; rawB]].
Proof.
  split; [by left|]. split; [vm_compute; reflexivity|].
  split; vm_compute; reflexivity.
Qed.

(** When every detected disc is the tracker's entry for its drive, the
    cycle calls neither enrichment nor a pipeline. *)
Lemma scan_unchanged_quiet (cfg : AppConfig) (c : Collaborators)
  (s : Service) (detected : list Disc) :
  detectAvailableDiscs c = Returned detected →
  (∀ x, x ∈ detected →
        processedDiscs s !! driveNumber x = Some (title x)) →
  enrichments (checkDrives cfg c s).2 = [] ∧
  dispatches (checkDrives cfg c s).2 = [].
Proof.
  intros Hdet Hall.
  assert (oneTitlePerDrive detected) as Hone.
  { intros x y Hx Hy Heq. apply Hall in Hx, Hy. congruence. }
  assert (newDiscsOf detected
            (cleanup (detectedDriveMapOf detected) (processedDiscs s)) = [])
    as Hnil.
  { apply elem_of_nil_inv. intros x [Hnone Hx]%elem_of_newDiscsOf.
    rewrite lookup_cleanup, (Hall x Hx), decide_True in Hnone; [done|].
    by apply detectedDriveMapOf_oneTitle. }
  destruct (importDiscService c) as [u|e] eqn:Hi.
  - rewrite (checkDrives_detected cfg c s u detected Hi Hdet). simpl.
    by rewrite Hnil.
  - unfold checkDrives. rewrite Hi.
    unfold enrichments, dispatches. simpl.
    fold (enrichments (scanCatch e)). fold (dispatches (scanCatch e)).
    by rewrite enrichments_scanCatch, dispatches_scanCatch.
Qed.

Lemma checkDrives_quiet (cfg : AppConfig) (c : Collaborators) (s : Service)
  (detected : list Disc) :
  detectAvailableDiscs c = Returned detected →
  newDiscsOf detected
    (cleanup (detectedDriveMapOf detected) (processedDiscs s)) = [] →
  enrichments (checkDrives cfg c s).2 = [] ∧
  dispatches (checkDrives cfg c s).2 = [].
Proof.
  intros Hdet Hnil.
  destruct (importDiscService c) as [u|e] eqn:Hi.
  - rewrite (checkDrives_detected cfg c s u detected Hi Hdet). simpl.
    by rewrite Hnil.
  - unfold checkDrives. rewrite Hi.
    unfold enrichments, dispatches. simpl.
    fold (enrichments (scanCatch e)). fold (dispatches (scanCatch e)).
    by rewrite enrichments_scanCatch, dispatches_scanCatch.
Qed.

Lemma afterDetect_processed (detected : list Disc) (s : Service) :
  processedDiscs (afterDetect detected s).1.1 =
  cleanup (detectedDriveMapOf detected) (processedDiscs s).
Proof. unfold afterDetect. by case_bool_decide. Qed.

Lemma processDiscs_processed (cfg : AppConfig) (c : Collaborators)
  (items : list Disc) (s : Service) :
  items ≠ [] →
  processedDiscs (processDiscs cfg c (Some items) s).1 =
  markProcessed items (processedDiscs s).
Proof. intros H. by rewrite processDiscs_nonempty. Qed.

(** A detected disc is new exactly when the tracker's entry for its drive
    is not the title the snapshot's map holds for the drive: there is no
    entry, or the entry has another title. *)
Lemma elem_of_newDiscs_cleaned (detected : list Disc) (pd : gmap N string)
  (d : Disc) :
  d ∈ newDiscsOf detected (cleanup (detectedDriveMapOf detected) pd) ↔
  d ∈ detected ∧
  pd !! driveNumber d ≠ detectedDriveMapOf detected !! driveNumber d.
Proof.
  rewrite elem_of_newDiscsOf, lookup_cleanup. split.
  - intros [Hnone Hd]. split; [done|].
    destruct (pd !! driveNumber d) as [t|] eqn:E.
    + destruct (decide (detectedDriveMapOf detected !! driveNumber d
                        = Some t)); [done | congruence].
    + rewrite lookup_detectedDriveMapOf. intros Heq. symmetry in Heq.
      eapply lastTitle_None in Heq; [|exact Hd]. done.
  - intros [Hd Hne]. split; [|done].
    destruct (pd !! driveNumber d) as [t|]; [|done].
    destruct (decide (detectedDriveMapOf detected !! driveNumber d
                      = Some t)); [congruence | done].
Qed.

(** The tracker a scan cycle leaves, when its import and detection
    returned and enrichment gives back the records of the new discs: the
    snapshot's map when a pipeline was called, the cleaned tracker
    otherwise. *)
Lemma checkDrives_tracker (cfg : AppConfig) (c : Collaborators)
  (s : Service) (u : unit) (detected : list Disc) :
  importDiscService c = Returned u →
  detectAvailableDiscs c = Returned detected →
  (∀ items,
     getCompleteDiscInfo c
       (newDiscsOf detected
          (cleanup (detectedDriveMapOf detected) (processedDiscs s)))
     = Returned items →
     enrichedFrom
       (newDiscsOf detected
          (cleanup (detectedDriveMapOf detected) (processedDiscs s)))
       items) →
  processedDiscs (checkDrives cfg c s).1 = detectedDriveMapOf detected ∨
  processedDiscs (checkDrives cfg c s).1 =
    cleanup (detectedDriveMapOf detected) (processedDiscs s).
Proof.
  intros Hi Hd Henr.
  rewrite (checkDrives_detected cfg c s u detected Hi Hd). cbn zeta.
  cbn [processedDiscs set_processedDiscs] in *.
  destruct (newDiscsOf detected _) as [|x nd] eqn:E; [by right|].
  destruct (getCompleteDiscInfo c (x :: nd)) as [items|e]; [|by right].
  specialize (Henr items eq_refl).
  destruct (decide (items = [])) as [->|Hne]; [by right|].
  left. cbn [fst]. rewrite processDiscs_processed by done.
  cbn [processedDiscs set_processedDiscs].
  apply markProcessed_enriched. by rewrite E.
Qed.

(** A new disc is dispatched once: the cycle that finds it dispatches it,
    and a further cycle over the same snapshot does nothing. *)
Lemma new_disc_dispatched_once (cfg : AppConfig) (c : Collaborators)
  (s : Service) (detected : list Disc) (d : Disc) (items : list Disc) :
  let dm := detectedDriveMapOf detected in
  let newDiscs := newDiscsOf detected (cleanup dm (processedDiscs s)) in
  d ∈ detected →
  processedDiscs s !! driveNumber d ≠ dm !! driveNumber d →
  importDiscService c = Returned () →
  detectAvailableDiscs c = Returned detected →
  getCompleteDiscInfo c newDiscs = Returned items →
  enrichedFrom newDiscs items →
  enrichments (checkDrives cfg c s).2 = [newDiscs] ∧
  dispatches (checkDrives cfg c s).2 = [(selectPipeline cfg, items)] ∧
  (∃ item, item ∈ items ∧ driveNumber item = driveNumber d ∧
           title item = title d) ∧
  processedDiscs (checkDrives cfg c s).1 = dm ∧
  ∀ c', detectAvailableDiscs c' = Returned detected →
        enrichments (checkDrives cfg c' (checkDrives cfg c s).1).2 = [] ∧
        dispatches (checkDrives cfg c' (checkDrives cfg c s).1).2 = [].
Proof.
  intros dm newDiscs Hd Hfree Himp Hdet Hret Henr.
  assert (d ∈ newDiscs) as Hnew by (by apply elem_of_newDiscs_cleaned).
  set (cleaned := cleanup dm (processedDiscs s)) in *.
  assert (items ≠ []) as Hne.
  { intros ->. apply Forall2_nil_inv_r in Henr.
    rewrite Henr in Hnew. by apply elem_of_nil in Hnew. }
  assert (checkDrives cfg c s =
          ((processDiscs cfg c (Some items)
              (set_processedDiscs cleaned s)).1,
           [Import; Detect; Log Info (MsgDetected (length newDiscs));
            Enrich newDiscs;
            Log Info (MsgStartingProcessing (length items))] ++
           (processDiscs cfg c (Some items)
              (set_processedDiscs cleaned s)).2)) as Hshape.
  { rewrite (checkDrives_detected cfg c s () detected Himp Hdet). simpl.
    fold dm. fold cleaned. fold newDiscs.
    destruct newDiscs as [|x nd] eqn:E; [by apply elem_of_nil in Hnew|].
    by rewrite Hret. }
  assert (processedDiscs (checkDrives cfg c s).1 = dm) as Hafter.
  { rewrite Hshape. simpl. rewrite processDiscs_processed by done. simpl.
    by apply markProcessed_enriched. }
  split.
  { rewrite Hshape. unfold enrichments. simpl.
    fold (enrichments (processDiscs cfg c (Some items)
                         (set_processedDiscs cleaned s)).2).
    by rewrite enrichments_processDiscs. }
  split.
  { rewrite Hshape. unfold dispatches. simpl.
    fold (dispatches (processDiscs cfg c (Some items)
                        (set_processedDiscs cleaned s)).2).
    by rewrite dispatches_processDiscs. }
  split.
  { apply list_elem_of_lookup in Hnew as [i Hi].
    destruct (Forall2_lookup_l _ _ _ _ _ Henr Hi) as (item & Hitem & ? & ?).
    exists item. split; [|done]. apply list_elem_of_lookup. eauto. }
  split; [done|].
  intros c' Hdet'. apply (checkDrives_quiet cfg c' _ detected Hdet').
  rewrite Hafter. unfold dm. rewrite cleanup_agree.
  apply newDiscsOf_detectedDriveMap.
Qed.

(** C3. In a scan cycle over the snapshot [detected], the tracker entry
    (D, T) is gone after the cleanup exactly when D is absent from the
    snapshot's drive-to-title map or is there under another title, and is
    kept exactly when the map holds T for D; cleanup adds nothing.  A
    detected disc is selected as new exactly when the tracker's entry for
    its drive is not the snapshot's title for the drive: the drive has no
    entry, or its entry was under another title and has just been deleted;
    so a drive that had an entry triggers processing only through that
    deletion.  For such a disc (a new drive or a changed title alike), the
    inventory calls returning (enrichment giving back the records of the
    new discs), the cycle makes exactly one enrichment call and exactly
    one pipeline call, the batch has the disc's record, the tracker becomes
    the snapshot's map, and a further cycle over the same snapshot calls
    neither enrichment nor a pipeline: the disc is dispatched once.  The
    purge lasts: after a whole cycle in which (D, T) was deleted, the
    tracker does not hold (D, T), whatever else the cycle did, and when a
    later snapshot has drive D under T again, the cycle over it dispatches
    that disc, once. *)
Theorem cleanup_and_reconsideration (cfg : AppConfig) (c : Collaborators)
  (s : Service) (detected : list Disc) :
  let dm := detectedDriveMapOf detected in
  let cleaned := processedDiscs (afterDetect detected s).1.1 in
  let newDiscs := newDiscsOf detected cleaned in
  (∀ D T, processedDiscs s !! D = Some T →
     (cleaned !! D = None ↔
      dm !! D = None ∨ ∃ T', dm !! D = Some T' ∧ T' ≠ T) ∧
     (cleaned !! D = Some T ↔ dm !! D = Some T)) ∧
  (∀ D T, cleaned !! D = Some T → processedDiscs s !! D = Some T) ∧
  (∀ x, x ∈ newDiscs →
     cleaned !! driveNumber x = None ∧
     ∀ T, processedDiscs s !! driveNumber x = Some T →
          ∃ T', dm !! driveNumber x = Some T' ∧ T' ≠ T) ∧
  (∀ d, d ∈ newDiscs ↔
        d ∈ detected ∧
        processedDiscs s !! driveNumber d ≠ dm !! driveNumber d) ∧
  (∀ d items,
     d ∈ detected →
     processedDiscs s !! driveNumber d ≠ dm !! driveNumber d →
     importDiscService c = Returned () →
     detectAvailableDiscs c = Returned detected →
     getCompleteDiscInfo c newDiscs = Returned items →
     enrichedFrom newDiscs items →
     enrichments (checkDrives cfg c s).2 = [newDiscs] ∧
     dispatches (checkDrives cfg c s).2 = [(selectPipeline cfg, items)] ∧
     (∃ item, item ∈ items ∧ driveNumber item = driveNumber d ∧
              title item = title d) ∧
     processedDiscs (checkDrives cfg c s).1 = dm ∧
     ∀ c', detectAvailableDiscs c' = Returned detected →
           enrichments (checkDrives cfg c' (checkDrives cfg c s).1).2 = [] ∧
           dispatches (checkDrives cfg c' (checkDrives cfg c s).1).2 = []) ∧
  (∀ D T,
     processedDiscs s !! D = Some T →
     dm !! D ≠ Some T →
     importDiscService c = Returned () →
     detectAvailableDiscs c = Returned detected →
     (∀ items, getCompleteDiscInfo c newDiscs = Returned items →
               enrichedFrom newDiscs items) →
     processedDiscs (checkDrives cfg c s).1 !! D ≠ Some T ∧
     ∀ c2 later d items2,
       d ∈ later → driveNumber d = D → title d = T →
       detectedDriveMapOf later !! D = Some T →
       importDiscService c2 = Returned () →
       detectAvailableDiscs c2 = Returned later →
       getCompleteDiscInfo c2
         (newDiscsOf later
            (cleanup (detectedDriveMapOf later)
               (processedDiscs (checkDrives cfg c s).1))) =
         Returned items2 →
       enrichedFrom
         (newDiscsOf later
            (cleanup (detectedDriveMapOf later)
               (processedDiscs (checkDrives cfg c s).1))) items2 →
       dispatches (checkDrives cfg c2 (checkDrives cfg c s).1).2 =
         [(selectPipeline cfg, items2)] ∧
       (∃ item, item ∈ items2 ∧ driveNumber item = D ∧ title item = T) ∧
       ∀ c3, detectAvailableDiscs c3 = Returned later →
             dispatches
               (checkDrives cfg c3
                  (checkDrives cfg c2 (checkDrives cfg c s).1).1).2 = []).
Proof.
  intros dm cleaned newDiscs.
  assert (cleaned = cleanup dm (processedDiscs s)) as Hcl
    by apply afterDetect_processed.
  assert (∀ D T, processedDiscs s !! D = Some T →
            (cleaned !! D = None ↔
             dm !! D = None ∨ ∃ T', dm !! D = Some T' ∧ T' ≠ T) ∧
            (cleaned !! D = Some T ↔ dm !! D = Some T)) as Hexact.
  { intros D T HT. rewrite Hcl, lookup_cleanup, HT.
    destruct (decide (dm !! D = Some T)) as [Hd|Hd].
    - split; [|done]. split; [done|].
      intros [Hn|(T' & HT' & Hne)]; congruence.
    - split; [|split; [done | by intros ?]]. split; [|done]. intros _.
      destruct (dm !! D) as [T'|]; [|by left].
      right. exists T'. split; [done | congruence]. }
  split; [exact Hexact|].
  split.
  { intros D T. rewrite Hcl, lookup_cleanup.
    destruct (processedDiscs s !! D) as [T0|]; [|done].
    by destruct (decide (dm !! D = Some T0)). }
  split.
  { intros x [Hnone Hx]%elem_of_newDiscsOf. split; [done|].
    intros T HT. destruct (Hexact _ _ HT) as [[Hgone _] _].
    destruct (Hgone Hnone) as [Habs|?]; [|done]. exfalso.
    unfold dm in Habs. rewrite lookup_detectedDriveMapOf in Habs.
    eapply lastTitle_None in Habs; [|exact Hx]. done. }
  split.
  { intros d. unfold newDiscs. rewrite Hcl.
    apply elem_of_newDiscs_cleaned. }
  split.
  { intros d items Hd Hfree Himp Hdet Hret Henr.
    unfold newDiscs in *. rewrite Hcl in *.
    by apply (new_disc_dispatched_once cfg c s detected d items). }
  intros D T HT Hgone Himp Hdet Henr.
  unfold newDiscs in Henr. rewrite Hcl in Henr.
  assert (processedDiscs (checkDrives cfg c s).1 !! D ≠ Some T) as Hpurged.
  { destruct (checkDrives_tracker cfg c s () detected Himp Hdet Henr)
      as [-> | ->]; [done|].
    rewrite lookup_cleanup, HT. fold dm. by rewrite decide_False. }
  split; [exact Hpurged|].
  intros c2 later d items2 Hd HD Htitle Hlater Himp2 Hdet2 Hret2 Henr2.
  destruct (new_disc_dispatched_once cfg c2 (checkDrives cfg c s).1 later
              d items2 Hd) as (_ & Hdis & Hitem & _ & Hquiet); try done.
  { rewrite HD, Hlater. exact Hpurged. }
  split; [exact Hdis|]. split.
  { destruct Hitem as (item & ? & ? & ?). exists item. split; [done|].
    split; congruence. }
  intros c3 Hdet3. by apply Hquiet.
Qed.

Lemma cleanup_and_reconsideration_witness :
  (processedDiscs trackedA !! 1%N = Some "Movie A"%string ∧
   processedDiscs (afterDetect [rawB] trackedA).1.1 !! 1%N = None ∧
   rawB ∈ [rawB] ∧
   processedDiscs trackedA !! driveNumber rawB ≠
     detectedDriveMapOf [rawB] !! driveNumber rawB ∧
   dispatches
     (checkDrives cfgRip (inventory [rawB] (Returned ())) trackedA).2 =
   [(RipPipeline, [fullB])] ∧
   dispatches
     (checkDrives cfgRip (inventory [rawB] (Returned ()))
        (checkDrives cfgRip (inventory [rawB] (Returned ())) trackedA).1).2
   = []) ∧
  (detectedDriveMapOf [] !! 1%N ≠ Some "Movie A"%string ∧
   processedDiscs
     (checkDrives cfgRip (inventory [] (Returned ())) trackedA).1 !! 1%N
   ≠ Some "Movie A"%string ∧
   dispatches
     (checkDrives cfgRip (inventory [rawA] (Returned ()))
        (checkDrives cfgRip (inventory [] (Returned ())) trackedA).1).2 =
   [(RipPipeline, [fullA])]).
Proof.
  assert (processedDiscs trackedA !! 1%N = Some "Movie A"%string) as Hhas
    by (vm_compute; reflexivity).
  assert (rawB ∈ [rawB]) as Hin by (by left).
  assert (processedDiscs trackedA !! driveNumber rawB ≠
          detectedDriveMapOf [rawB] !! driveNumber rawB) as Hswap
    by (vm_compute; discriminate).
  assert (detectedDriveMapOf [] !! 1%N ≠ Some "Movie A"%string) as Hempty
    by (vm_compute; discriminate).
  split.
  - destruct (cleanup_and_reconsideration cfgRip
                (inventory [rawB] (Returned ())) trackedA [rawB])
      as (Hexact & _ & _ & _ & Honce & _).
    split; [exact Hhas|]. split.
    { apply (Hexact 1%N "Movie A"%string Hhas).
      right. exists "Movie B"%string. split; [vm_compute; reflexivity|].
      discriminate. }
    split; [exact Hin|]. split; [exact Hswap|].
    destruct (Honce rawB [fullB] Hin Hswap eq_refl eq_refl eq_refl)
      as (_ & Hdis & _ & _ & Hagain).
    { vm_compute. constructor; [split; reflexivity | constructor]. }
    split; [exact Hdis|].
    apply (Hagain (inventory [rawB] (Returned ()))). reflexivity.
  - destruct (cleanup_and_reconsideration cfgRip
                (inventory [] (Returned ())) trackedA [])
      as (_ & _ & _ & _ & _ & Hlater).
    destruct (Hlater 1%N "Movie A"%string Hhas Hempty eq_refl eq_refl)
      as (Hpurged & Hback).
    { intros items [= <-]. vm_compute. constructor. }
    split; [exact Hempty|]. split; [exact Hpurged|].
    assert (rawA ∈ [rawA]) as HinA by (by left).
    destruct (Hback (inventory [rawA] (Returned ())) [rawA] rawA [fullA]
                HinA eq_refl eq_refl eq_refl eq_refl eq_refl eq_refl)
      as (Hdis & _).
    { vm_compute. constructor; [split; reflexivity | constructor]. }
    exact Hdis.
Defined.

(** ** Mark before work *)

(** For a non-empty batch, [processDiscs] writes every batch record into
    the tracker before it calls the pipeline: in the state in which the
    call is made, the last thing done, the tracker is the old one with the
    batch marked on it, it has an entry for the drive of every batch
    record, and that entry is the title of the batch's last record for the
    drive, which is the record's own title when the batch has no drive
    under two titles.  Whatever the pipeline call does, returning or
    raising, the tracker afterwards is that same tracker. *)
Lemma processDiscs_marks_first (cfg : AppConfig) (c : Collaborators)
  (items : list Disc) (s : Service) :
  items ≠ [] →
  ∃ s1 ev,
    processDiscs_enter cfg (Some items) s = Some (s1, ev, items) ∧
    last ev = Some (callPipeline (selectPipeline cfg) items) ∧
    processedDiscs s1 = markProcessed items (processedDiscs s) ∧
    (∀ item, item ∈ items →
       is_Some (processedDiscs s1 !! driveNumber item) ∧
       processedDiscs s1 !! driveNumber item =
         lastTitle (driveNumber item) items) ∧
    (oneTitlePerDrive items →
     ∀ item, item ∈ items →
       processedDiscs s1 !! driveNumber item = Some (title item)) ∧
    (∀ o, processedDiscs (processDiscs_leave o s1).1 = processedDiscs s1) ∧
    processedDiscs (processDiscs cfg c (Some items) s).1 = processedDiscs s1 ∧
    (oneTitlePerDrive items →
     ∀ detected d item,
       item ∈ items → d ∈ detected →
       driveNumber d = driveNumber item → title d = title item →
       detectedDriveMapOf detected !! driveNumber d = Some (title d) →
       d ∉ newDiscsOf detected
             (cleanup (detectedDriveMapOf detected) (processedDiscs s1))).
Proof.
  intros Hne.
  assert (∀ item, item ∈ items →
            markProcessed items (processedDiscs s) !! driveNumber item =
            lastTitle (driveNumber item) items ∧
            is_Some (lastTitle (driveNumber item) items)) as Hlast.
  { intros item Hitem. rewrite lookup_markProcessed.
    destruct (lastTitle (driveNumber item) items) as [t|] eqn:E.
    - split; [done | eauto].
    - exfalso. eapply lastTitle_None in E; [|exact Hitem]. done. }
  assert (oneTitlePerDrive items → ∀ item, item ∈ items →
            markProcessed items (processedDiscs s) !! driveNumber item =
            Some (title item)) as Hown.
  { intros Hone item Hitem. destruct (Hlast item Hitem) as [-> _].
    by apply lastTitle_oneTitlePerDrive. }
  exists (set_processedDiscs (markProcessed items (processedDiscs s))
            (set_currentOperation (Some "processing"%string) s)),
         [Emit "processing"; callPipeline (selectPipeline cfg) items].
  split; [by destruct items|]. split; [done|]. split; [done|]. simpl.
  split.
  { intros item Hitem. destruct (Hlast item Hitem) as [Heq Hsome].
    split; [by rewrite Heq | done]. }
  split; [done|]. split; [done|].
  split; [by rewrite processDiscs_processed|].
  intros Hone detected d item Hitem Hd Hdrive Htitle Hdm
    [Hnone _]%elem_of_newDiscsOf.
  rewrite lookup_cleanup, Hdrive, (Hown Hone item Hitem) in Hnone.
  rewrite Hdrive, Htitle in Hdm. by rewrite decide_True in Hnone.
Qed.

(** ** One record per drive

    A drive holds one disc, so an inventory snapshot, and a batch made from
    one, has one record per drive. *)

(** C1. For every tracker state and every inventory snapshot (one record
    per drive), if a detected disc's drive and title are the tracker's
    entry for that drive, the scan cycle makes no enrichment call and no
    pipeline call for that disc: no list passed to enrichment has a record
    of its drive, any batch handed to a pipeline is what enrichment
    returned for a list without that drive, and with an enrichment that
    returns the records it was given no dispatched batch has a record of
    the drive.  The entry is still the tracker's after the cycle, so the
    same holds of every later cycle that sees the pair again.  And when
    every detected disc is unchanged in this way, the cycle calls neither
    enrichment nor a pipeline at all. *)
Theorem scan_idempotent (cfg : AppConfig) (c : Collaborators) (s : Service)
  (detected : list Disc) (d : Disc) :
  NoDup (driveNumber <$> detected) →
  detectAvailableDiscs c = Returned detected →
  d ∈ detected →
  processedDiscs s !! driveNumber d = Some (title d) →
  (∀ batch, batch ∈ enrichments (checkDrives cfg c s).2 →
     (d ∉ batch) ∧ ∀ x, x ∈ batch → driveNumber x ≠ driveNumber d) ∧
  (∀ p batch, (p, batch) ∈ dispatches (checkDrives cfg c s).2 →
     ∃ newDiscs, getCompleteDiscInfo c newDiscs = Returned batch ∧
                 ∀ x, x ∈ newDiscs → driveNumber x ≠ driveNumber d) ∧
  ((∀ l items, getCompleteDiscInfo c l = Returned items →
               enrichedFrom l items) →
   (∀ p batch, (p, batch) ∈ dispatches (checkDrives cfg c s).2 →
      ∀ item, item ∈ batch → driveNumber item ≠ driveNumber d) ∧
   processedDiscs (checkDrives cfg c s).1 !! driveNumber d =
     Some (title d)) ∧
  ((∀ x, x ∈ detected →
         processedDiscs s !! driveNumber x = Some (title x)) →
   enrichments (checkDrives cfg c s).2 = [] ∧
   dispatches (checkDrives cfg c s).2 = []).
Proof.
  intros Hnd Hdet Hd Hpd.
  assert (detectedDriveMapOf detected !! driveNumber d = Some (title d))
    as Hdm.
  { apply detectedDriveMapOf_oneTitle; [|done].
    by apply NoDup_oneTitlePerDrive. }
  destruct (scan_keeps_entry cfg c s detected d Hdet Hd Hpd Hdm)
    as (Henr & Hdis & Hfaith).
  split.
  { intros batch Hb. split; [|by apply Henr].
    intros Hin. by apply (Henr batch Hb d Hin). }
  split; [exact Hdis|]. split.
  { intros Hfaithful. split; [by apply Hfaith|].
    destruct (importDiscService c) as [u|e] eqn:Hi.
    - destruct (checkDrives_tracker cfg c s u detected Hi Hdet)
        as [-> | ->]; [by intros items; apply Hfaithful | done |].
      by rewrite lookup_cleanup, Hpd, decide_True.
    - unfold checkDrives. by rewrite Hi. }
  intros Hall. by apply (scan_unchanged_quiet cfg c s detected).
Qed.

Lemma scan_idempotent_witness :
  NoDup (driveNumber <$> [rawA; rawC]) ∧
  rawA ∈ [rawA; rawC] ∧
  processedDiscs trackedA !! driveNumber rawA = Some (title rawA) ∧
  enrichments
    (checkDrives cfgRip (inventory [rawA; rawC] (Returned ())) trackedA).2 =
  [[rawC]] ∧
  ∀ batch,
    batch ∈ enrichments
      (checkDrives cfgRip (inventory [rawA; rawC] (Returned ())) trackedA).2 →
    (rawA ∉ batch) ∧ ∀ x, x ∈ batch → driveNumber x ≠ driveNumber rawA.
Proof.
  assert (NoDup (driveNumber <$> [rawA; rawC])) as Hnd.
  { apply (bool_decide_unpack (NoDup (driveNumber <$> [rawA; rawC]))).
    vm_compute. exact I. }
  assert (rawA ∈ [rawA; rawC]) as Hin by (by left).
  assert (processedDiscs trackedA !! driveNumber rawA = Some (title rawA))
    as Hpd by (vm_compute; reflexivity).
  split; [exact Hnd|]. split; [exact Hin|]. split; [exact Hpd|].
  split; [vm_compute; reflexivity|].
  apply (scan_idempotent cfgRip (inventory [rawA; rawC] (Returned ()))
           trackedA [rawA; rawC] rawA Hnd eq_refl Hin Hpd).
Defined.

(** C2. For every non-empty enriched batch (one record per drive) passed
    to [processDiscs], every batch record's drive and title are in the
    tracker in the state in which the pipeline entry point is called, the
    call being the last thing done before the function suspends.  Whatever
    the pipeline call then does, returning or raising, the tracker holds
    every batch entry afterwards.  And a scan cycle run after the call was
    made, on the state at the call or on the state [processDiscs] leaves,
    over a snapshot (one record per drive) that has a batch record's drive
    under its title, passes no disc of that drive to enrichment, and with
    an enrichment that returns the records it was given dispatches no
    record of that drive. *)
Theorem mark_before_work (cfg : AppConfig) (c : Collaborators)
  (items : list Disc) (s : Service) :
  items ≠ [] →
  NoDup (driveNumber <$> items) →
  ∃ s1 ev,
    processDiscs_enter cfg (Some items) s = Some (s1, ev, items) ∧
    last ev = Some (callPipeline (selectPipeline cfg) items) ∧
    processedDiscs s1 = markProcessed items (processedDiscs s) ∧
    (∀ item, item ∈ items →
       processedDiscs s1 !! driveNumber item = Some (title item)) ∧
    (∀ o item, item ∈ items →
       processedDiscs (processDiscs_leave o s1).1 !! driveNumber item =
       Some (title item)) ∧
    (∀ item, item ∈ items →
       processedDiscs (processDiscs cfg c (Some items) s).1
         !! driveNumber item = Some (title item)) ∧
    (∀ st c' detected d item,
       st = s1 ∨ (∃ o, st = (processDiscs_leave o s1).1) ∨
       st = (processDiscs cfg c (Some items) s).1 →
       NoDup (driveNumber <$> detected) →
       detectAvailableDiscs c' = Returned detected →
       item ∈ items → d ∈ detected →
       driveNumber d = driveNumber item → title d = title item →
       (∀ batch, batch ∈ enrichments (checkDrives cfg c' st).2 →
          (d ∉ batch) ∧ ∀ x, x ∈ batch → driveNumber x ≠ driveNumber d) ∧
       ((∀ l its, getCompleteDiscInfo c' l = Returned its →
                  enrichedFrom l its) →
        ∀ p batch, (p, batch) ∈ dispatches (checkDrives cfg c' st).2 →
          ∀ it, it ∈ batch → driveNumber it ≠ driveNumber d)).
Proof.
  intros Hne Hnd.
  pose proof (NoDup_oneTitlePerDrive items Hnd) as Hone.
  destruct (processDiscs_marks_first cfg c items s Hne)
    as (s1 & ev & Henter & Hlast & Hmark & _ & Hown & Hleave & Hend & _).
  specialize (Hown Hone).
  exists s1, ev. split; [done|]. split; [done|]. split; [done|].
  split; [done|]. split.
  { intros o item Hitem. rewrite Hleave. by apply Hown. }
  split.
  { intros item Hitem. rewrite Hend. by apply Hown. }
  intros st c' detected d item Hst Hnd' Hdet Hitem Hd Hdrive Htitle.
  assert (processedDiscs st = processedDiscs s1) as Hsame.
  { destruct Hst as [->|[[o ->]| ->]]; [done | apply Hleave | done]. }
  assert (processedDiscs st !! driveNumber d = Some (title d)) as Hpd.
  { rewrite Hsame, Hdrive, Htitle. by apply Hown. }
  assert (detectedDriveMapOf detected !! driveNumber d = Some (title d))
    as Hdm.
  { apply detectedDriveMapOf_oneTitle; [|done].
    by apply NoDup_oneTitlePerDrive. }
  destruct (scan_keeps_entry cfg c' st detected d Hdet Hd Hpd Hdm)
    as (Henr & _ & Hfaith).
  split; [|exact Hfaith].
  intros batch Hb. split; [|by apply Henr].
  intros Hin. by apply (Henr batch Hb d Hin).
Qed.

Lemma mark_before_work_witness :
  NoDup (driveNumber <$> [fullA; fullC]) ∧
  processedDiscs
    (processDiscs cfgRip (inventory [] (Raised boom)) (Some [fullA; fullC])
       constructor).1 !! driveNumber fullA = Some (title fullA) ∧
  NoDup (driveNumber <$> [rawA; rawC]) ∧
  ∀ batch,
    batch ∈ enrichments
      (checkDrives cfgRip (inventory [rawA; rawC] (Returned ()))
         (processDiscs cfgRip (inventory [] (Raised boom))
            (Some [fullA; fullC]) constructor).1).2 →
    (rawA ∉ batch) ∧ ∀ x, x ∈ batch → driveNumber x ≠ driveNumber rawA.
Proof.
  assert (NoDup (driveNumber <$> [fullA; fullC])) as Hnd.
  { apply (bool_decide_unpack (NoDup (driveNumber <$> [fullA; fullC]))).
    vm_compute. exact I. }
  assert (NoDup (driveNumber <$> [rawA; rawC])) as Hnd'.
  { apply (bool_decide_unpack (NoDup (driveNumber <$> [rawA; rawC]))).
    vm_compute. exact I. }
  assert ([fullA; fullC] ≠ []) as Hne by discriminate.
  destruct (mark_before_work cfgRip (inventory [] (Raised boom))
              [fullA; fullC] constructor Hne Hnd)
    as (s1 & ev & _ & _ & _ & _ & _ & Hafter & Hscan).
  split; [exact Hnd|]. split; [apply (Hafter fullA); by left|].
  split; [exact Hnd'|].
  apply (Hscan _ (inventory [rawA; rawC] (Returned ())) [rawA; rawC] rawA
           fullA).
  - right. right. reflexivity.
  - exact Hnd'.
  - reflexivity.
  - by left.
  - by left.
  - reflexivity.
  - reflexivity.
Defined.

(** The tracker holds one title per drive: were a batch to list drive 1
    twice, as "Movie A" and then as "Movie B", the tracker would hold
    (1, "Movie B") only. *)
Lemma markProcessed_last_record :
  processedDiscs
    (processDiscs cfgRip (inventory [] (Raised boom)) (Some [fullA; fullB])
       constructor).1 = {[1%N := "Movie B"%string]}.
Proof. vm_compute. reflexivity. Qed.

(** ** Errors of the inventory calls *)

Lemma scanCatch_only_warns (e : JsError) (ev : Event) :
  ev ∈ scanCatch e → ∃ m, ev = Log Warning (MsgPollingWarning m).
Proof.
  destruct (scanCatch_cases e) as [->|[m ->]]; [by intros ?%elem_of_nil|].
  intros ->%list_elem_of_singleton. eauto.
Qed.


Lemma dispatches_pollCatch (o : option JsError) :
  dispatches (pollCatch o) = [].
Proof. by destruct o. Qed.

Lemma enrichments_pollCatch (o : option JsError) :
  enrichments (pollCatch o) = [].
Proof. by destruct o. Qed.







Lemma timerInv_step (cfg : AppConfig) (a : Action) (m m' : Machine) :
  timerInv (service m) (host m) → step cfg a m = Some m' →
  timerInv (service m') (host m').
Proof.
  intros Hinv Hstep. destruct a as [| |t|i r]; simpl in Hstep.
  - assert (timerInv (start cfg (service m) (host m)).1.1
                     (start cfg (service m) (host m)).1.2) as H.
    { unfold start. destruct (isPolling (service m)); [done|].
      assert (timerInv (set_isPolling true (service m)) (host m)) as Hinv'
        by done.
      pose proof (startPolling_spec cfg _ _ Hinv') as (_ & _ & _ & H).
      by destruct (startPolling cfg _ _) as [[s1 h1] ev]. }
    destruct (start cfg (service m) (host m)) as [[s h] ev].
    by injection Hstep as <-.
  - assert (timerInv (stop (service m) (host m)).1.1
                     (stop (service m) (host m)).1.2) as H.
    { unfold stop. destruct (isPolling (service m)); [|done]. simpl.
      assert (timerInv (set_isPolling false (service m)) (host m)) as Hinv'
        by done.
      pose proof (stopPolling_spec _ _ Hinv') as (_ & _ & _ & H).
      by destruct (stopPolling _ _) as [s1 h1]. }
    destruct (stop (service m) (host m)) as [[s h] ev].
    by injection Hstep as <-.
  - destruct (liveTimers (host m) !! t); [|done].
    injection Hstep as <-. unfold timerCallback.
    by destruct (truthy _ || _).
  - destruct (pending m !! i) as [t0|]; [|done].
    destruct (resume cfg t0 r (service m)) as [[[s ev] next]|] eqn:Hres;
      [|done].
    injection Hstep as <-. simpl.
    enough (pollInterval s = pollInterval (service m)) as Hsame
      by (unfold timerInv in *; by rewrite Hsame).
    destruct t0, r as [o|o|o|o]; simpl in Hres; try done.
    + by destruct o; injection Hres as <- <- <-.
    + destruct o as [detected|e]; [|by injection Hres as <- <- <-].
      assert (pollInterval (afterDetect detected (service m)).1.1 =
              pollInterval (service m)) as Hpi
        by (unfold afterDetect; by case_bool_decide).
      by destruct (afterDetect detected (service m)) as [[s1 ev1] [nd|]];
        injection Hres as <- <- <-.
    + by destruct o as [[|it items]|e]; injection Hres as <- <- <-.
    + by injection Hres as <- <- <-.
Qed.

(** At any time at most one timer is live, and it is the one
    [pollInterval] refers to. *)
Lemma timerInv_reachable (cfg : AppConfig) (m : Machine) :
  reachable cfg m →
  timerInv (service m) (host m) ∧ size (liveTimers (host m)) ≤ 1.
Proof.
  intros [actions Hrun].
  enough (timerInv (service m) (host m)) as H
    by (split; [done | by eapply timerInv_size]).
  assert (timerInv (service initial) (host initial)) as Hinit.
  { split; [done | apply map_Forall_empty]. }
  revert Hrun Hinit. generalize initial.
  induction actions as [|a rest IH]; intros m0; simpl.
  - by intros [= <-].
  - destruct (step cfg a m0) as [m1|] eqn:Hstep; [|done].
    intros Hrun Hinv. apply (IH m1 Hrun). by eapply timerInv_step.
Qed.

(** ** The scenarios of the specification, run *)

Example includes_executable_not_found :
  includes "executable not found"
    "MakeMKV executable not found at /usr/bin/makemkvcon" = true ∧
  includes "executable not found" "MakeMKV is busy" = false ∧
  includes "executable not found" "Executable Not Found" = false.
Proof. repeat split. Qed.

(** Drive 1 holds "Movie A" and the tracker is empty: the cycle enriches
    and dispatches it, and the tracker then holds the drive. *)
Example scenario_first_insertion :
  pollTick cfgRip (inventory [rawA] (Returned ())) constructor =
  (trackedA,
   [Import; Detect; Log Info (MsgDetected 1); Enrich [rawA];
    Log Info (MsgStartingProcessing 1); Emit "processing";
    RipQueue [fullA]; Emit "scanning"]).
Proof. vm_compute. reflexivity. Qed.

(** Next tick, same disc: nothing is enriched or dispatched. *)
Example scenario_same_disc :
  pollTick cfgRip (inventory [rawA] (Returned ())) trackedA =
  (trackedA, [Import; Detect]).
Proof. vm_compute. reflexivity. Qed.

(** The disc is ejected: the tracker is cleared for the drive. *)
Example scenario_ejected :
  pollTick cfgRip (inventory [] (Returned ())) trackedA =
  (constructor, [Import; Detect]).
Proof. vm_compute. reflexivity. Qed.

(** The pipeline call raises: the failure is logged at error level, the
    service is back to scanning, and the tracker holds the batch. *)
Example scenario_pipeline_fails :
  pollTick cfgRip (inventory [rawA] (Raised boom)) constructor =
  (trackedA,
   [Import; Detect; Log Info (MsgDetected 1); Enrich [rawA];
    Log Info (MsgStartingProcessing 1); Emit "processing";
    RipQueue [fullA]; Log Error (MsgProcessingFailed boom);
    Emit "scanning"]).
Proof. vm_compute. reflexivity. Qed.

(** A tick on a closed gate is dropped. *)
Example scenario_gate_closed :
  pollTick cfgRip (inventory [rawA] (Returned ()))
    (set_isChecking true constructor) =
  (set_isChecking true constructor, []).
Proof. reflexivity. Qed.

(** * Further properties of the service *)

(** ** start and stop *)

Lemma start_polls (cfg : AppConfig) (s : Service) (h : Host) :
  isPolling (start cfg s h).1.1 = true.
Proof.
  unfold start. destruct (isPolling s) eqn:E; [done|].
  unfold startPolling, stopPolling. simpl.
  by destruct (pollInterval s).
Qed.

Lemma stop_stops (s : Service) (h : Host) :
  isPolling (stop s h).1.1 = false.
Proof.
  unfold stop. destruct (isPolling s) eqn:E; [|done]. simpl.
  unfold stopPolling. simpl. by destruct (pollInterval s).
Qed.

(** X1. Calling [start()] twice is calling it once: whatever the state, the
    service polls after [start()], and a second [start()] changes neither
    the service nor the timers and only logs that the service is already
    running (no status event, no new timer).  Likewise the service does
    not poll after [stop()], and a second [stop()] changes nothing and
    emits nothing. *)
Theorem start_stop_idempotent (cfg : AppConfig) (s : Service) (h : Host) :
  (isPolling (start cfg s h).1.1 = true ∧
   start cfg (start cfg s h).1.1 (start cfg s h).1.2 =
   ((start cfg s h).1.1, (start cfg s h).1.2, [Log Info MsgAlreadyRunning])) ∧
  (isPolling (stop s h).1.1 = false ∧
   stop (stop s h).1.1 (stop s h).1.2 =
   ((stop s h).1.1, (stop s h).1.2, [])).
Proof.
  split.
  - pose proof (start_polls cfg s h) as Hp. split; [done|].
    unfold start at 1. by rewrite Hp.
  - pose proof (stop_stops s h) as Hp. split; [done|].
    unfold stop at 1. by rewrite Hp.
Qed.

(** X2. [start()] then [stop()] on a service that is not polling gives the
    service back as it was: not polling, handle null, tracker and gate flags
    untouched, and no timer left live; only the handle counter has moved.
    The two calls publish ["scanning"] and then ["idle"]. *)
Theorem start_then_stop (cfg : AppConfig) (s : Service) (h : Host) :
  isPolling s = false →
  pollInterval s = None →
  liveTimers h = ∅ →
  stop (start cfg s h).1.1 (start cfg s h).1.2 =
  (s, {| liveTimers := ∅; nextHandle := S (nextHandle h) |},
   [Log Info MsgStopping; Emit "idle"]) ∧
  statusEvents
    ((start cfg s h).2 ++ (stop (start cfg s h).1.1 (start cfg s h).1.2).2) =
  ["scanning"; "idle"]%string.
Proof.
  intros Hp Hi Hl. destruct s as [p i pd op chk], h as [lt nh].
  simpl in *. subst.
  unfold start, startPolling, stopPolling, stop. simpl.
  unfold clearInterval. simpl.
  rewrite insert_empty, delete_singleton_eq. done.
Qed.

Lemma start_then_stop_witness :
  isPolling constructor = false ∧
  pollInterval constructor = None ∧
  liveTimers (host initial) = ∅ ∧
  stop (start cfgRip constructor (host initial)).1.1
       (start cfgRip constructor (host initial)).1.2 =
  (constructor, {| liveTimers := ∅; nextHandle := 2 |},
   [Log Info MsgStopping; Emit "idle"]).
Proof.
  split; [reflexivity|]. split; [reflexivity|]. split; [reflexivity|].
  apply (start_then_stop cfgRip constructor (host initial));
    reflexivity.
Defined.

(** ** Polling and the timer, in every reachable state *)

Lemma resume_polling (cfg : AppConfig) (t : Task) (r : Reply)
  (s s' : Service) (ev : list Event) (next : option Task) :
  resume cfg t r s = Some (s', ev, next) →
  isPolling s' = isPolling s ∧ pollInterval s' = pollInterval s.
Proof.
  intros Hres.
  destruct t, r as [o|o|o|o]; simpl in Hres; try done.
  - by destruct o; injection Hres as <- <- <-.
  - destruct o as [detected|e]; [|by injection Hres as <- <- <-].
    assert (isPolling (afterDetect detected s).1.1 = isPolling s ∧
            pollInterval (afterDetect detected s).1.1 = pollInterval s)
      as [Hp Hi] by (unfold afterDetect; by case_bool_decide).
    by destruct (afterDetect detected s) as [[s1 ev1] [nd|]];
      injection Hres as <- <- <-.
  - by destruct o as [[|it items]|e]; injection Hres as <- <- <-.
  - by injection Hres as <- <- <-.
Qed.

Lemma pollingInv_step (cfg : AppConfig) (a : Action) (m m' : Machine) :
  pollingInv cfg (service m) (host m) → step cfg a m = Some m' →
  pollingInv cfg (service m') (host m').
Proof.
  unfold pollingInv. intros Hinv Hstep.
  destruct a as [| |t|i r]; simpl in Hstep.
  - destruct m as [[p pi pd op chk] [lt nh] pend tr]. simpl in *.
    unfold start in Hstep. simpl in Hstep.
    destruct p; [by injection Hstep as <-|].
    destruct pi as [t|]; [by destruct Hinv|]. destruct Hinv as [_ ->].
    injection Hstep as <-. simpl. by rewrite insert_empty.
  - destruct m as [[p pi pd op chk] [lt nh] pend tr]. simpl in *.
    unfold stop in Hstep. simpl in Hstep.
    destruct p; [|by injection Hstep as <-].
    destruct pi as [t|]; [|by destruct Hinv]. destruct Hinv as [_ ->].
    injection Hstep as <-. simpl. by rewrite delete_singleton_eq.
  - destruct (liveTimers (host m) !! t); [|done].
    injection Hstep as <-. unfold timerCallback.
    by destruct (truthy _ || _).
  - destruct (pending m !! i) as [t0|]; [|done].
    destruct (resume cfg t0 r (service m)) as [[[s ev] next]|] eqn:Hres;
      [|done].
    apply resume_polling in Hres as [Hp Hi].
    injection Hstep as <-. simpl. by rewrite Hp, Hi.
Qed.

Lemma pollingInv_reachable (cfg : AppConfig) (m : Machine) :
  reachable cfg m → pollingInv cfg (service m) (host m).
Proof.
  intros [actions Hrun].
  assert (pollingInv cfg (service initial) (host initial)) as Hinit by done.
  revert Hrun Hinit. generalize initial.
  induction actions as [|a rest IH]; intros m0; simpl.
  - by intros [= <-].
  - destruct (step cfg a m0) as [m1|] eqn:Hstep; [|done].
    intros Hrun Hinv. apply (IH m1 Hrun). by eapply pollingInv_step.
Qed.

Lemma justStarted_reachable : reachable cfgRip justStarted.
Proof. exists [CallStart]. vm_compute. reflexivity. Defined.




(** ** stop() and the callback in flight *)

Lemma afterDetect_polling (detected : list Disc) (s : Service)
  (b : bool) (p : option nat) :
  afterDetect detected (set_pollInterval p (set_isPolling b s)) =
  (set_pollInterval p (set_isPolling b (afterDetect detected s).1.1),
   (afterDetect detected s).1.2, (afterDetect detected s).2).
Proof. unfold afterDetect. simpl. by case_bool_decide. Qed.

(** What a resumed callback does is the same whatever [isPolling] and the
    timer handle are, and it passes them on. *)
Lemma resume_polling_frame (cfg : AppConfig) (t : Task) (r : Reply)
  (s : Service) (b : bool) (p : option nat) :
  resume cfg t r (set_pollInterval p (set_isPolling b s)) =
  (λ out : Service * list Event * option Task,
     (set_pollInterval p (set_isPolling b out.1.1), out.1.2, out.2))
  <$> resume cfg t r s.
Proof.
  destruct t, r as [o|o|o|o]; simpl; try done.
  - by destruct o.
  - destruct o as [detected|e]; [|done].
    rewrite afterDetect_polling.
    by destruct (afterDetect detected s) as [[s1 ev1] [nd|]].
  - by destruct o as [[|it items]|e].
Qed.

(** X4. [stop()] prevents future ticks and interrupts nothing.  In a
    reachable state, after [stop()] no timer can fire; the suspended
    callbacks, the tracker and the two gate flags are as before; and any
    awaited call that could settle before [stop()] settles after it in the
    same way: it emits the same events and leaves the same suspended
    callbacks, tracker and gate flags. *)
Theorem stop_interrupts_nothing (cfg : AppConfig) (m : Machine) :
  reachable cfg m →
  ∃ m',
    step cfg CallStop m = Some m' ∧
    (∀ t, step cfg (TimerFires t) m' = None) ∧
    pending m' = pending m ∧
    processedDiscs (service m') = processedDiscs (service m) ∧
    isChecking (service m') = isChecking (service m) ∧
    currentOperation (service m') = currentOperation (service m) ∧
    ∀ i r m1,
      step cfg (Settles i r) m = Some m1 →
      ∃ m1' ev,
        step cfg (Settles i r) m' = Some m1' ∧
        emitted m1 = emitted m ++ ev ∧
        emitted m1' = emitted m' ++ ev ∧
        pending m1' = pending m1 ∧
        processedDiscs (service m1') = processedDiscs (service m1) ∧
        isChecking (service m1') = isChecking (service m1) ∧
        currentOperation (service m1') = currentOperation (service m1).
Proof.
  intros Hreach.
  pose proof (pollingInv_reachable cfg m Hreach) as Hinv.
  assert (∃ ev h,
            stop (service m) (host m) =
            (set_pollInterval None (set_isPolling false (service m)), h, ev)
            ∧ liveTimers h = ∅) as (ev0 & h0 & Hstop & Hdead).
  { unfold pollingInv in Hinv. unfold stop, stopPolling.
    destruct (service m) as [p pi pd op chk]. simpl in *.
    destruct pi as [t|]; destruct Hinv as [-> Hl]; simpl.
    - eexists _, _. split; [reflexivity|]. simpl.
      by rewrite Hl, delete_singleton_eq.
    - eexists _, _. split; [reflexivity | done]. }
  simpl. rewrite Hstop. eexists. split; [reflexivity|]. simpl.
  split; [by intros t; rewrite Hdead, lookup_empty|].
  split_and!; try done.
  intros i r m1 Hsettle.
  destruct (pending m !! i) as [t0|]; [|done].
  rewrite resume_polling_frame.
  destruct (resume cfg t0 r (service m)) as [[[s1 ev1] next]|]; [|done].
  injection Hsettle as <-. simpl.
  eexists _, ev1. split; [reflexivity|]. by split_and!.
Qed.

Lemma stop_interrupts_nothing_witness :
  reachable cfgRip midScan ∧
  ∃ m', step cfgRip CallStop midScan = Some m' ∧
        (∀ t, step cfgRip (TimerFires t) m' = None) ∧
        pending m' = pending midScan.
Proof.
  split; [exact midScan_reachable|].
  destruct (stop_interrupts_nothing cfgRip midScan midScan_reachable)
    as (m' & Hstep & Hdead & Hpend & _).
  exists m'. split; [exact Hstep|]. split; [exact Hdead | exact Hpend].
Defined.

(** X6. The gate is never stale: in a reachable state with no callback
    suspended, both gate flags are clear, so a tick of a live timer is
    accepted: it sets [isChecking], starts a scan cycle (the import of the
    disc service) and suspends there. *)
Theorem idle_tick_accepted (cfg : AppConfig) (m : Machine) (t : nat) :
  reachable cfg m →
  pending m = [] →
  is_Some (liveTimers (host m) !! t) →
  isChecking (service m) = false ∧
  currentOperation (service m) = None ∧
  step cfg (TimerFires t) m =
  Some {| service := set_isChecking true (service m);
          host := host m;
          pending := [AwaitImport];
          emitted := emitted m ++ [Import] |}.
Proof.
  intros Hreach Hp [ms Ht].
  pose proof (gateInv_reachable cfg m Hreach) as Hgate.
  unfold gateInv in Hgate. rewrite Hp in Hgate. destruct Hgate as [Hc Ho].
  split; [done|]. split; [done|].
  simpl. rewrite Ht. unfold timerCallback. by rewrite Hc, Ho, Hp.
Qed.

Lemma idle_tick_accepted_witness :
  reachable cfgRip justStarted ∧
  pending justStarted = [] ∧
  is_Some (liveTimers (host justStarted) !! 1) ∧
  step cfgRip (TimerFires 1) justStarted =
  Some {| service := set_isChecking true (service justStarted);
          host := host justStarted;
          pending := [AwaitImport];
          emitted := emitted justStarted ++ [Import] |}.
Proof.
  assert (is_Some (liveTimers (host justStarted) !! 1)) as Hlive
    by (vm_compute; eauto).
  split; [exact justStarted_reachable|]. split; [reflexivity|].
  split; [exact Hlive|].
  apply (idle_tick_accepted cfgRip justStarted 1 justStarted_reachable
           eq_refl Hlive).
Defined.

(** ** The timer callback, whatever the collaborators do *)

Lemma statusEvents_app (a b : list Event) :
  statusEvents (a ++ b) = statusEvents a ++ statusEvents b.
Proof. apply omap_app. Qed.

Lemma statusEvents_scanCatch (e : JsError) : statusEvents (scanCatch e) = [].
Proof.
  by destruct (scanCatch_cases e) as [->|[m ->]].
Qed.

Lemma statusEvents_pollCatch (o : option JsError) :
  statusEvents (pollCatch o) = [].
Proof. by destruct o. Qed.

(** Neither handler of a failed cycle calls a collaborator or publishes a
    status. *)
Lemma handlers_quiet (e : JsError) :
  enrichments (scanCatch e ++ pollCatch (scanCatchThrows e)) = [] ∧
  dispatches (scanCatch e ++ pollCatch (scanCatchThrows e)) = [] ∧
  statusEvents (scanCatch e ++ pollCatch (scanCatchThrows e)) = [].
Proof.
  by rewrite enrichments_app, dispatches_app, statusEvents_app,
    enrichments_scanCatch, dispatches_scanCatch, statusEvents_scanCatch,
    enrichments_pollCatch, dispatches_pollCatch, statusEvents_pollCatch.
Qed.

Lemma processDiscs_frame (cfg : AppConfig) (c : Collaborators)
  (arg : option (list Disc)) (s : Service) :
  isPolling (processDiscs cfg c arg s).1 = isPolling s ∧
  pollInterval (processDiscs cfg c arg s).1 = pollInterval s ∧
  isChecking (processDiscs cfg c arg s).1 = isChecking s ∧
  (truthy (currentOperation s) = false →
   truthy (currentOperation (processDiscs cfg c arg s).1) = false).
Proof.
  destruct arg as [[|it items]|]; done.
Qed.

Lemma checkDrives_frame (cfg : AppConfig) (c : Collaborators) (s : Service) :
  isPolling (checkDrives cfg c s).1 = isPolling s ∧
  pollInterval (checkDrives cfg c s).1 = pollInterval s ∧
  isChecking (checkDrives cfg c s).1 = isChecking s ∧
  (truthy (currentOperation s) = false →
   truthy (currentOperation (checkDrives cfg c s).1) = false).
Proof.
  unfold checkDrives.
  destruct (importDiscService c) as [u|e]; [|done].
  destruct (detectAvailableDiscs c) as [detected|e]; [|done].
  pose proof (afterDetect_gate detected s) as (Hc & Ho).
  assert (isPolling (afterDetect detected s).1.1 = isPolling s ∧
          pollInterval (afterDetect detected s).1.1 = pollInterval s)
    as [Hp Hi] by (unfold afterDetect; by case_bool_decide).
  destruct (afterDetect detected s) as [[s1 ev1] [nd|]]; simpl in *;
    [|by rewrite Ho].
  destruct (getCompleteDiscInfo c nd) as [items|e]; simpl;
    [|by rewrite Hc, Ho, Hp, Hi].
  pose proof (processDiscs_frame cfg c (Some items) s1)
    as (Hp' & Hi' & Hc' & Ho').
  destruct (processDiscs cfg c (Some items) s1) as [s2 ev2]. simpl in *.
  split_and!; try congruence. intros Hop. apply Ho'. by rewrite Ho.
Qed.

(** X5. The gate always reopens.  A timer callback that passes the gate
    leaves it open behind it, whatever the collaborators do: every call
    may return or raise, enrichment may return anything, the pipeline may
    fail; afterwards [isChecking] is clear and [currentOperation] is not
    set.  The callback never starts or stops polling. *)
Theorem pollTick_reopens_gate (cfg : AppConfig) (c : Collaborators)
  (s : Service) :
  truthy (currentOperation s) || isChecking s = false →
  truthy (currentOperation (pollTick cfg c s).1)
    || isChecking (pollTick cfg c s).1 = false ∧
  isPolling (pollTick cfg c s).1 = isPolling s ∧
  pollInterval (pollTick cfg c s).1 = pollInterval s.
Proof.
  intros Hgate. apply orb_false_elim in Hgate as Hflags.
  destruct Hflags as [Hop Hchk].
  unfold pollTick. rewrite Hgate.
  pose proof (checkDrives_frame cfg c (set_isChecking true s))
    as (Hp & Hi & _ & Ho).
  destruct (checkDrives cfg c (set_isChecking true s)) as [s1 ev].
  simpl in *. rewrite (Ho Hop). done.
Qed.

Lemma pollTick_reopens_gate_witness :
  truthy (currentOperation trackedA) || isChecking trackedA = false ∧
  truthy (currentOperation
            (pollTick cfgRip (inventory [rawC] (Raised boom)) trackedA).1)
    || isChecking
         (pollTick cfgRip (inventory [rawC] (Raised boom)) trackedA).1
  = false.
Proof.
  split; [reflexivity|].
  apply (pollTick_reopens_gate cfgRip (inventory [rawC] (Raised boom))
           trackedA). reflexivity.
Defined.

(** X7. A failed detection changes nothing.  When the import of the disc
    service or the detection call raises, the timer callback leaves the
    service exactly as it found it: in particular the tracker is not
    cleaned, so a transient inventory failure does not make the service
    forget a disc it has processed.  Nothing is enriched, dispatched or
    published. *)
Theorem failed_detection_changes_nothing (cfg : AppConfig)
  (c : Collaborators) (s : Service) (e : JsError) :
  truthy (currentOperation s) || isChecking s = false →
  importDiscService c = Raised e ∨ detectAvailableDiscs c = Raised e →
  (pollTick cfg c s).1 = s ∧
  enrichments (pollTick cfg c s).2 = [] ∧
  dispatches (pollTick cfg c s).2 = [] ∧
  statusEvents (pollTick cfg c s).2 = [].
Proof.
  intros Hgate Hraise. apply orb_false_elim in Hgate as Hflags.
  destruct Hflags as [_ Hchk].
  assert (set_isChecking false (set_isChecking true s) = s) as Hback.
  { destruct s. simpl in *. by subst. }
  unfold pollTick, checkDrives, checkDrivesRejects. rewrite Hgate.
  destruct (importDiscService c) as [u|e1] eqn:Hi.
  - destruct Hraise as [?|Hd]; [done|]. rewrite Hd. cbn [fst snd].
    split; [done|]. rewrite <- !app_assoc.
    rewrite (enrichments_app _ (_ ++ _)), (dispatches_app _ (_ ++ _)),
      (statusEvents_app _ (_ ++ _)).
    by destruct (handlers_quiet e) as (-> & -> & ->).
  - cbn [fst snd]. split; [done|]. rewrite <- !app_assoc.
    rewrite (enrichments_app _ (_ ++ _)), (dispatches_app _ (_ ++ _)),
      (statusEvents_app _ (_ ++ _)).
    by destruct (handlers_quiet e1) as (-> & -> & ->).
Qed.

Lemma failed_detection_changes_nothing_witness :
  truthy (currentOperation trackedA) || isChecking trackedA = false ∧
  detectAvailableDiscs (detectFails busy) = Raised busy ∧
  (pollTick cfgRip (detectFails busy) trackedA).1 = trackedA.
Proof.
  split; [reflexivity|]. split; [reflexivity|].
  apply (failed_detection_changes_nothing cfgRip (detectFails busy)
           trackedA busy eq_refl). by right.
Defined.

(** ** Discs that were not enriched *)

Lemma cleanup_idemp (dm pd : gmap N string) :
  cleanup dm (cleanup dm pd) = cleanup dm pd.
Proof.
  apply map_eq. intros d. rewrite !lookup_cleanup.
  destruct (pd !! d) as [t|]; [|done].
  destruct (decide (dm !! d = Some t)); [|done].
  by rewrite decide_True.
Qed.

(** X8. Discs whose enrichment failed are retried.  When the enrichment
    call for the new discs raises, or returns an empty list, the cycle
    marks none of them: the tracker is the cleaned one, nothing is
    dispatched and no status is published.  A further cycle over the same
    snapshot then passes the very same list of new discs to enrichment
    again. *)
Theorem unenriched_discs_retried (cfg : AppConfig) (c c' : Collaborators)
  (s : Service) (detected : list Disc) :
  importDiscService c = Returned () →
  detectAvailableDiscs c = Returned detected →
  importDiscService c' = Returned () →
  detectAvailableDiscs c' = Returned detected →
  newDiscsOf detected
    (cleanup (detectedDriveMapOf detected) (processedDiscs s)) ≠ [] →
  (getCompleteDiscInfo c
     (newDiscsOf detected
        (cleanup (detectedDriveMapOf detected) (processedDiscs s)))
   = Returned [] ∨
   ∃ e, getCompleteDiscInfo c
          (newDiscsOf detected
             (cleanup (detectedDriveMapOf detected) (processedDiscs s)))
        = Raised e) →
  processedDiscs (checkDrives cfg c s).1 =
    cleanup (detectedDriveMapOf detected) (processedDiscs s) ∧
  dispatches (checkDrives cfg c s).2 = [] ∧
  statusEvents (checkDrives cfg c s).2 = [] ∧
  enrichments (checkDrives cfg c s).2 =
    [newDiscsOf detected
       (cleanup (detectedDriveMapOf detected) (processedDiscs s))] ∧
  enrichments (checkDrives cfg c' (checkDrives cfg c s).1).2 =
    [newDiscsOf detected
       (cleanup (detectedDriveMapOf detected) (processedDiscs s))].
Proof.
  intros Hi Hd Hi' Hd' Hne Hfail.
  remember (cleanup (detectedDriveMapOf detected) (processedDiscs s))
    as pd1 eqn:Hpd1.
  remember (newDiscsOf detected pd1) as nd eqn:Hnd.
  assert (processedDiscs (checkDrives cfg c s).1 = pd1 ∧
          dispatches (checkDrives cfg c s).2 = [] ∧
          statusEvents (checkDrives cfg c s).2 = [] ∧
          enrichments (checkDrives cfg c s).2 = [nd])
    as (Hpd & Hdis & Hst & Hen).
  { rewrite (checkDrives_detected cfg c s () detected Hi Hd). simpl.
    rewrite <- Hpd1, <- Hnd. destruct nd as [|x rest]; [done|].
    destruct Hfail as [->|[e ->]]; simpl; [done|].
    unfold enrichments, dispatches, statusEvents. simpl.
    fold (enrichments (scanCatch e)). fold (dispatches (scanCatch e)).
    fold (statusEvents (scanCatch e)).
    by rewrite enrichments_scanCatch, dispatches_scanCatch,
      statusEvents_scanCatch. }
  split_and!; try done.
  assert (newDiscsOf detected
            (cleanup (detectedDriveMapOf detected)
               (processedDiscs (checkDrives cfg c s).1)) = nd) as Hsame.
  { by rewrite Hpd, Hpd1, cleanup_idemp, <- Hpd1. }
  rewrite (checkDrives_detected cfg c' _ () detected Hi' Hd'). simpl.
  rewrite Hsame. destruct nd as [|x rest]; [done|].
  destruct (getCompleteDiscInfo c' (x :: rest)) as [items|e]; simpl.
  - unfold enrichments. simpl. f_equal.
    apply (enrichments_processDiscs cfg c' (Some items)).
  - unfold enrichments. simpl. f_equal. apply enrichments_scanCatch.
Qed.

Lemma unenriched_discs_retried_witness :
  newDiscsOf [rawA]
    (cleanup (detectedDriveMapOf [rawA]) (processedDiscs constructor)) ≠ [] ∧
  enrichments
    (checkDrives cfgRip (inventory [rawA] (Returned ()))
       (checkDrives cfgRip (enrichmentSettles [rawA] (Raised busy))
          constructor).1).2 = [[rawA]].
Proof.
  assert (newDiscsOf [rawA]
            (cleanup (detectedDriveMapOf [rawA]) (processedDiscs constructor))
          ≠ []) as Hne by (vm_compute; discriminate).
  split; [exact Hne|].
  destruct (unenriched_discs_retried cfgRip
              (enrichmentSettles [rawA] (Raised busy))
              (inventory [rawA] (Returned ())) constructor [rawA]
              eq_refl eq_refl eq_refl eq_refl Hne)
    as (_ & _ & _ & _ & Hagain); [right; by exists busy|].
  exact Hagain.
Defined.

(** ** What a scan cycle calls *)

Lemma enrichments_cons (ev : Event) (tr : list Event) :
  enrichments (ev :: tr) =
  match enrichmentOf ev with
  | Some l => l :: enrichments tr
  | None => enrichments tr
  end.
Proof. reflexivity. Qed.

Lemma dispatches_cons (ev : Event) (tr : list Event) :
  dispatches (ev :: tr) =
  match dispatchOf ev with
  | Some d => d :: dispatches tr
  | None => dispatches tr
  end.
Proof. reflexivity. Qed.

(** X9. Whatever the collaborators do, a scan cycle calls enrichment at
    most once and a pipeline at most once.  Enrichment is never called
    with an empty list: what it is given is a non-empty selection of the
    detected discs, in detection order.  A pipeline is never called with
    an empty batch, and only with what the cycle's one enrichment call
    returned, through the entry point the configured mode selects. *)
Theorem scan_cycle_calls (cfg : AppConfig) (c : Collaborators)
  (s : Service) :
  length (enrichments (checkDrives cfg c s).2) ≤ 1 ∧
  length (dispatches (checkDrives cfg c s).2) ≤ 1 ∧
  (∀ batch, batch ∈ enrichments (checkDrives cfg c s).2 →
     batch ≠ [] ∧
     ∃ detected, detectAvailableDiscs c = Returned detected ∧
                 batch `sublist_of` detected) ∧
  (∀ p batch, (p, batch) ∈ dispatches (checkDrives cfg c s).2 →
     batch ≠ [] ∧ p = selectPipeline cfg ∧
     ∃ newDiscs, enrichments (checkDrives cfg c s).2 = [newDiscs] ∧
                 getCompleteDiscInfo c newDiscs = Returned batch).
Proof.
  assert (∀ tr : list Event,
            enrichments tr = [] → dispatches tr = [] →
            length (enrichments tr) ≤ 1 ∧ length (dispatches tr) ≤ 1 ∧
            (∀ batch, batch ∈ enrichments tr →
               batch ≠ [] ∧
               ∃ detected, detectAvailableDiscs c = Returned detected ∧
                           batch `sublist_of` detected) ∧
            (∀ p batch, (p, batch) ∈ dispatches tr →
               batch ≠ [] ∧ p = selectPipeline cfg ∧
               ∃ newDiscs, enrichments tr = [newDiscs] ∧
                           getCompleteDiscInfo c newDiscs = Returned batch))
    as Hquiet.
  { intros tr -> ->. split_and!; [simpl; lia..| |]; intros;
      by apply elem_of_nil in H. }
  destruct (importDiscService c) as [u|e] eqn:Hi.
  2: { unfold checkDrives. rewrite Hi. apply Hquiet; simpl.
       - rewrite ?enrichments_cons. apply enrichments_scanCatch.
       - rewrite ?dispatches_cons. apply dispatches_scanCatch. }
  destruct (detectAvailableDiscs c) as [detected|e] eqn:Hd.
  2: { unfold checkDrives. rewrite Hi, Hd. apply Hquiet; simpl.
       - rewrite ?enrichments_cons. apply enrichments_scanCatch.
       - rewrite ?dispatches_cons. apply dispatches_scanCatch. }
  rewrite (checkDrives_detected cfg c s u detected Hi Hd). simpl.
  remember (newDiscsOf detected
              (cleanup (detectedDriveMapOf detected) (processedDiscs s)))
    as nd eqn:Hnd.
  assert (nd `sublist_of` detected) as Hsub.
  { rewrite Hnd. unfold newDiscsOf. apply sublist_filter. }
  destruct nd as [|x rest]; [by apply Hquiet|].
  destruct (getCompleteDiscInfo c (x :: rest)) as [items|e] eqn:Hret; simpl.
  - rewrite ?enrichments_cons, ?dispatches_cons; simpl.
    rewrite (enrichments_processDiscs cfg c (Some items)),
      (dispatches_processDiscs_any cfg c items).
    split_and!.
    + simpl. lia.
    + destruct items; simpl; lia.
    + intros batch ->%list_elem_of_singleton. split; [done|]. eauto.
    + intros p batch Hb. destruct items as [|it items'];
        [by apply elem_of_nil in Hb|].
      apply list_elem_of_singleton in Hb as [= -> ->].
      split; [done|]. split; [done|]. eauto.
  - rewrite ?enrichments_cons, ?dispatches_cons; simpl.
    rewrite enrichments_scanCatch, dispatches_scanCatch.
    split_and!; [simpl; lia..| |].
    + intros batch ->%list_elem_of_singleton. split; [done|]. eauto.
    + intros p batch Hb. by apply elem_of_nil in Hb.
Qed.

(** ** What the tracker holds after a cycle *)

Lemma elem_of_newDiscsOf_detected (l : list Disc) (pd : gmap N string)
  (x : Disc) : x ∈ newDiscsOf l pd → x ∈ l.
Proof. by intros [_ ?]%elem_of_newDiscsOf. Qed.

(** X10. The tracker holds only discs of the snapshot.  After a scan cycle
    whose import and detection returned, with an enrichment that returns
    only records (by drive and title) of the discs it was given, every
    entry (D, T) of the tracker is a detected disc: the snapshot has a
    record for drive D with title T.  No entry outlives the disc's
    presence. *)
Theorem tracker_within_snapshot (cfg : AppConfig) (c : Collaborators)
  (s : Service) (detected : list Disc) :
  importDiscService c = Returned () →
  detectAvailableDiscs c = Returned detected →
  (∀ l items, getCompleteDiscInfo c l = Returned items →
     ∀ item, item ∈ items →
       ∃ x, x ∈ l ∧ driveNumber x = driveNumber item ∧
            title x = title item) →
  ∀ D T, processedDiscs (checkDrives cfg c s).1 !! D = Some T →
         ∃ x, x ∈ detected ∧ driveNumber x = D ∧ title x = T.
Proof.
  intros Hi Hd Hsound D T.
  assert (∀ T', cleanup (detectedDriveMapOf detected) (processedDiscs s)
                  !! D = Some T' →
                ∃ x, x ∈ detected ∧ driveNumber x = D ∧ title x = T')
    as Hclean.
  { intros T'. rewrite lookup_cleanup.
    destruct (processedDiscs s !! D) as [T0|]; [|done].
    destruct (decide (detectedDriveMapOf detected !! D = Some T0))
      as [Hdm|]; [|done].
    intros [= <-]. rewrite lookup_detectedDriveMapOf in Hdm.
    by apply lastTitle_Some_elem. }
  rewrite (checkDrives_detected cfg c s () detected Hi Hd). simpl.
  remember (newDiscsOf detected
              (cleanup (detectedDriveMapOf detected) (processedDiscs s)))
    as nd eqn:Hnd.
  destruct nd as [|x0 rest]; [apply Hclean|].
  destruct (getCompleteDiscInfo c (x0 :: rest)) as [items|e] eqn:Hret;
    [|apply Hclean].
  destruct (decide (items = [])) as [->|Hne]; [apply Hclean|].
  cbn [fst]. rewrite processDiscs_processed by done.
  cbn [processedDiscs set_processedDiscs].
  rewrite lookup_markProcessed.
  destruct (lastTitle D items) as [T1|] eqn:Hlast; cbn [from_option];
    [|apply Hclean].
  intros [= <-].
  apply lastTitle_Some_elem in Hlast as (item & Hitem & Hdrive & Htitle).
  destruct (Hsound _ _ Hret item Hitem) as (x & Hx & Hxd & Hxt).
  exists x. split; [|by rewrite Hxd, Hxt].
  rewrite Hnd in Hx. by eapply elem_of_newDiscsOf_detected.
Qed.

Lemma tracker_within_snapshot_witness :
  processedDiscs
    (checkDrives cfgRip (inventory [rawC] (Returned ())) trackedA).1 !! 2%N
  = Some "Movie C"%string ∧
  ∃ x, x ∈ [rawC] ∧ driveNumber x = 2%N ∧ title x = "Movie C"%string.
Proof.
  assert (processedDiscs
            (checkDrives cfgRip (inventory [rawC] (Returned ())) trackedA).1
            !! 2%N = Some "Movie C"%string) as Hentry
    by (vm_compute; reflexivity).
  split; [exact Hentry|].
  apply (tracker_within_snapshot cfgRip (inventory [rawC] (Returned ()))
           trackedA [rawC] eq_refl eq_refl); [|exact Hentry].
  intros l items [= <-] item [x [-> Hx]]%list_elem_of_fmap.
  exists x. split; [exact Hx|]. split; reflexivity.
Defined.

(** X11. Marking touches only the batch's drives.  After [processDiscs] on
    any batch, a drive that is not the drive of a batch record has the
    entry it had (or none, as before), and the drives with an entry are
    the ones that had one together with the drives of the batch: marking
    never removes an entry. *)
Theorem processDiscs_marks_only_batch (cfg : AppConfig) (c : Collaborators)
  (items : list Disc) (s : Service) :
  (∀ D, (∀ item, item ∈ items → driveNumber item ≠ D) →
        processedDiscs (processDiscs cfg c (Some items) s).1 !! D =
        processedDiscs s !! D) ∧
  dom (processedDiscs (processDiscs cfg c (Some items) s).1) =
  dom (processedDiscs s) ∪ list_to_set (driveNumber <$> items).
Proof.
  assert (processedDiscs (processDiscs cfg c (Some items) s).1 =
          markProcessed items (processedDiscs s)) as ->.
  { destruct items as [|it rest]; [done|]. by apply processDiscs_processed. }
  split.
  - intros D HD. rewrite lookup_markProcessed.
    apply lastTitle_None in HD. by rewrite HD.
  - apply set_eq. intros D.
    rewrite elem_of_union, !elem_of_dom, elem_of_list_to_set,
      lookup_markProcessed, list_elem_of_fmap.
    destruct (lastTitle D items) as [T|] eqn:Hlast; simpl.
    + apply lastTitle_Some_elem in Hlast as (item & Hitem & Hd & _).
      split; [|eauto]. intros _. right. eauto.
    + split; [by left|]. intros [?|(item & -> & Hitem)]; [done|].
      exfalso. eapply lastTitle_None in Hlast; [|exact Hitem]. done.
Qed.

(** X12. A failed pipeline run leaves the service as a successful one does.
    Two timer callbacks that differ only in what the pipeline calls do
    (return or raise) end in the same service state: the same tracker, the
    same flags.  So nothing in the state tells the next tick that a run
    failed, and nothing is retried. *)
Theorem pipeline_outcome_leaves_no_trace_in_state (cfg : AppConfig)
  (c c' : Collaborators) (s : Service) :
  importDiscService c = importDiscService c' →
  detectAvailableDiscs c = detectAvailableDiscs c' →
  (∀ l, getCompleteDiscInfo c l = getCompleteDiscInfo c' l) →
  (pollTick cfg c s).1 = (pollTick cfg c' s).1.
Proof.
  intros Hi Hd He. unfold pollTick.
  destruct (truthy (currentOperation s) || isChecking s); [done|].
  assert ((checkDrives cfg c (set_isChecking true s)).1 =
          (checkDrives cfg c' (set_isChecking true s)).1) as Hsame.
  { unfold checkDrives. rewrite <- Hi, <- Hd.
    destruct (importDiscService c) as [u|e]; [|done].
    destruct (detectAvailableDiscs c) as [detected|e]; [|done].
    destruct (afterDetect detected (set_isChecking true s))
      as [[s1 ev1] [nd|]]; [|done].
    rewrite <- He. destruct (getCompleteDiscInfo c nd) as [items|e]; [|done].
    destruct items as [|it rest]; [done|].
    rewrite !processDiscs_nonempty by done. done. }
  destruct (checkDrives cfg c (set_isChecking true s)) as [s1 ev1].
  destruct (checkDrives cfg c' (set_isChecking true s)) as [s1' ev1'].
  simpl in *. by subst.
Qed.

Lemma pipeline_outcome_leaves_no_trace_in_state_witness :
  (pollTick cfgRip (inventory [rawA] (Returned ())) constructor).1 =
  (pollTick cfgRip (inventory [rawA] (Raised boom)) constructor).1.
Proof.
  apply (pipeline_outcome_leaves_no_trace_in_state cfgRip
           (inventory [rawA] (Returned ())) (inventory [rawA] (Raised boom))
           constructor); reflexivity.
Defined.

(** ** The status ["processing"] and the pipeline calls *)

Lemma announcedFrom_app (b : bool) (tr1 tr2 : list Event) :
  announcedFrom b tr1 = true → announcedFrom false tr2 = true →
  announcedFrom b (tr1 ++ tr2) = true.
Proof.
  revert b. induction tr1 as [|e rest IH]; intros b H1 H2.
  - destruct b; [done | exact H2].
  - simpl in *. destruct b.
    + apply andb_prop in H1 as [-> H1]. simpl. by apply IH.
    + destruct (decide (e = Emit "processing")); [by apply IH|].
      apply andb_prop in H1 as [-> H1]. simpl. by apply IH.
Qed.

Lemma announcedFrom_scanCatch (e : JsError) :
  announcedFrom false (scanCatch e) = true.
Proof.
  by destruct (scanCatch_cases e) as [->|[m ->]].
Qed.

Lemma announcedFrom_handlers (e : JsError) :
  announcedFrom false (scanCatch e ++ pollCatch (scanCatchThrows e)) = true.
Proof.
  unfold scanCatch, scanCatchThrows, catchBlock.
  destruct e as [[m|]| | |[|rendered|thrown]]; try done.
  by destruct (truthy (Some m) && negb (includes "executable not found" m)).
Qed.

(** What each step adds to the trace is accepted. *)
Lemma announcedFrom_step (cfg : AppConfig) (a : Action) (m m' : Machine) :
  step cfg a m = Some m' →
  ∃ ev, emitted m' = emitted m ++ ev ∧ announcedFrom false ev = true.
Proof.
  intros Hstep. destruct a as [| |t|i r]; simpl in Hstep.
  - unfold start, startPolling, stopPolling in Hstep.
    destruct (isPolling (service m)); [injection Hstep as <-; by eexists|].
    simpl in Hstep. destruct (pollInterval (service m));
      injection Hstep as <-; by eexists.
  - unfold stop, stopPolling in Hstep.
    destruct (isPolling (service m)); simpl in Hstep.
    + destruct (pollInterval (service m)); injection Hstep as <-;
        by eexists.
    + injection Hstep as <-. by eexists.
  - destruct (liveTimers (host m) !! t); [|done].
    injection Hstep as <-. unfold timerCallback.
    destruct (truthy _ || _); simpl.
    + exists []. by rewrite app_nil_r.
    + by eexists.
  - destruct (pending m !! i) as [t0|]; [|done].
    destruct (resume cfg t0 r (service m)) as [[[s ev] next]|] eqn:Hres;
      [|done].
    injection Hstep as <-. simpl. exists ev. split; [done|].
    destruct t0, r as [o|o|o|o]; simpl in Hres; try done.
    + destruct o; injection Hres as <- <- <-;
        [done | apply announcedFrom_handlers].
    + destruct o as [detected|e];
        [|injection Hres as <- <- <-; apply announcedFrom_handlers].
      assert (announcedFrom false (afterDetect detected (service m)).1.2
              = true) as Hev
        by (unfold afterDetect; by case_bool_decide).
      by destruct (afterDetect detected (service m)) as [[s1 ev1] [nd|]];
        injection Hres as <- <- <-.
    + destruct o as [[|it items]|e]; injection Hres as <- <- <-;
        [done | | apply announcedFrom_handlers].
      simpl. by destruct (selectPipeline cfg).
    + destruct o; by injection Hres as <- <- <-.
Qed.

Lemma announcedFrom_reachable (cfg : AppConfig) (m : Machine) :
  reachable cfg m → announcedFrom false (emitted m) = true.
Proof.
  intros [actions Hrun].
  assert (announcedFrom false (emitted initial) = true) as Hinit by done.
  revert Hrun Hinit. generalize initial.
  induction actions as [|a rest IH]; intros m0; simpl.
  - by intros [= <-].
  - destruct (step cfg a m0) as [m1|] eqn:Hstep; [|done].
    intros Hrun Hinv. apply (IH m1 Hrun).
    apply announcedFrom_step in Hstep as (ev & -> & Hev).
    by apply announcedFrom_app.
Qed.

(** What an accepted trace looks like around each of its events. *)
Lemma announcedFrom_spec (b : bool) (tr pre post : list Event) (e : Event) :
  announcedFrom b tr = true → tr = pre ++ e :: post →
  (isDispatch e = true →
   (pre = [] ∧ b = true) ∨ ∃ pre', pre = pre' ++ [Emit "processing"]) ∧
  (e = Emit "processing" →
   ∃ call post', post = call :: post' ∧ isDispatch call = true).
Proof.
  revert b pre. induction tr as [|x rest IH]; intros b pre Hacc Htr.
  { by destruct pre. }
  destruct pre as [|y pre'']; simpl in Htr; injection Htr as -> ->.
  - simpl in Hacc. destruct b.
    + apply andb_prop in Hacc as [Hd Hacc]. split; [by left|].
      intros ->. done.
    + destruct (decide (e = Emit "processing")) as [->|Hne].
      * split; [done|]. intros _. destruct post as [|call post'];
          [done|]. simpl in Hacc. apply andb_prop in Hacc as [Hd _]. eauto.
      * apply andb_prop in Hacc as [Hd _]. split; [|done].
        intros Hd'. by rewrite Hd' in Hd.
  - simpl in Hacc.
    assert (∃ b', announcedFrom b' (pre'' ++ e :: post) = true ∧
                  (b' = true → y = Emit "processing")) as (b' & Hacc' & Hb').
    { destruct b.
      - apply andb_prop in Hacc as [_ Hacc]. by exists false.
      - destruct (decide (y = Emit "processing")) as [->|Hne].
        + by exists true.
        + apply andb_prop in Hacc as [_ Hacc]. by exists false. }
    destruct (IH b' pre'' Hacc' eq_refl) as [Hcall Hproc].
    split; [|done]. intros Hd. right.
    destruct (Hcall Hd) as [[-> Hb]|[pre' ->]].
    + exists []. by rewrite (Hb' Hb).
    + by exists (y :: pre').
Qed.

(** X13. The status ["processing"] announces every pipeline call, and
    nothing else.  In the trace of every reachable state, each call of a
    pipeline entry point comes directly after a ["processing"] status
    event, and each ["processing"] status event is directly followed by a
    pipeline call: no log line, no other call and no other status comes
    between the two, whatever ticks, [start()] and [stop()] interleave. *)
Theorem processing_announces_dispatch (cfg : AppConfig) (m : Machine)
  (pre post : list Event) (e : Event) :
  reachable cfg m →
  emitted m = pre ++ e :: post →
  (isDispatch e = true → ∃ pre', pre = pre' ++ [Emit "processing"]) ∧
  (e = Emit "processing" →
   ∃ call post', post = call :: post' ∧ isDispatch call = true).
Proof.
  intros Hreach Htr.
  pose proof (announcedFrom_reachable cfg m Hreach) as Hacc.
  destruct (announcedFrom_spec false _ pre post e Hacc Htr) as [Hcall Hproc].
  split; [|done]. intros Hd. by destruct (Hcall Hd) as [[_ ?]|?].
Qed.

Lemma stoppedAfterRip_reachable : reachable cfgRip stoppedAfterRip.
Proof. exists stopWhileProcessing. vm_compute. reflexivity. Defined.

Lemma processing_announces_dispatch_witness :
  reachable cfgRip stoppedAfterRip ∧
  emitted stoppedAfterRip =
    [Log Info MsgStarting; Log Info (MsgPollingStarted 5000);
     Emit "scanning"; Import; Detect; Log Info (MsgDetected 1);
     Enrich [rawA]; Log Info (MsgStartingProcessing 1); Emit "processing"]
    ++ RipQueue [fullA]
    :: [Log Info MsgStopping; Emit "idle"; Emit "scanning"] ∧
  ∃ pre',
    [Log Info MsgStarting; Log Info (MsgPollingStarted 5000);
     Emit "scanning"; Import; Detect; Log Info (MsgDetected 1);
     Enrich [rawA]; Log Info (MsgStartingProcessing 1); Emit "processing"]
    = pre' ++ [Emit "processing"].
Proof.
  assert (emitted stoppedAfterRip =
          [Log Info MsgStarting; Log Info (MsgPollingStarted 5000);
           Emit "scanning"; Import; Detect; Log Info (MsgDetected 1);
           Enrich [rawA]; Log Info (MsgStartingProcessing 1);
           Emit "processing"]
          ++ RipQueue [fullA]
          :: [Log Info MsgStopping; Emit "idle"; Emit "scanning"]) as Htr
    by (vm_compute; reflexivity).
  split; [exact stoppedAfterRip_reachable|]. split; [exact Htr|].
  destruct (processing_announces_dispatch cfgRip stoppedAfterRip _ _ _
              stoppedAfterRip_reachable Htr) as [Hcall _].
  apply Hcall. reflexivity.
Defined.

(** ** The test on the error message *)

Lemma startsWith_spec (needle hay : string) :
  startsWith needle hay = true ↔ ∃ post, hay = needle +:+ post.
Proof.
  revert hay. induction needle as [|a n IH]; intros hay; simpl.
  - split; [eauto | done].
  - destruct hay as [|b h].
    + split; [done | by intros [post ?]].
    + rewrite andb_true_iff, bool_decide_eq_true, IH. split.
      * intros [-> [post ->]]. eauto.
      * intros [post [= -> ->]]. eauto.
Qed.

(** X14. The test that silences the warning is substring containment:
    [includes needle hay] holds exactly when [needle] occurs somewhere in
    [hay], character for character (so case matters).  The warning of a
    scan error is thus suppressed exactly for messages that contain
    "executable not found" (and for empty or absent ones). *)
Theorem includes_occursIn (needle hay : string) :
  includes needle hay = true ↔ occursIn needle hay.
Proof.
  unfold occursIn. induction hay as [|b h IH].
  - simpl. rewrite orb_false_r, startsWith_spec. split.
    + intros [post H]. by exists EmptyString, post.
    + intros (pre & post & H). destruct pre as [|a pre]; [eauto|done].
  - cbn [includes]. rewrite orb_true_iff, startsWith_spec, IH. split.
    + intros [[post H]|(pre & post & H)].
      * by exists EmptyString, post.
      * exists (String b pre), post. simpl. by rewrite H.
    + intros (pre & post & H). destruct pre as [|a pre].
      * left. eauto.
      * right. simpl in H. injection H as -> ->. eauto.
Qed.

(** ** The detected map *)

Lemma lastTitle_app (d : N) (l1 l2 : list Disc) :
  lastTitle d (l1 ++ l2) =
  match lastTitle d l2 with
  | Some t => Some t
  | None => lastTitle d l1
  end.
Proof.
  induction l1 as [|x rest IH]; simpl.
  - by destruct (lastTitle d l2).
  - rewrite IH. by destruct (lastTitle d l2).
Qed.

(** X15. In the map a scan cycle builds from the snapshot, the last record
    of a drive wins: a record's title is the one held for its drive when
    no later record of the snapshot has that drive.  Every title the map
    holds is the title of some detected record of that drive, and the map
    has no entry exactly for the drives no record has. *)
Theorem detected_map_last_wins (detected : list Disc) :
  (∀ pre x post, detected = pre ++ x :: post →
     (∀ y, y ∈ post → driveNumber y ≠ driveNumber x) →
     detectedDriveMapOf detected !! driveNumber x = Some (title x)) ∧
  (∀ D T, detectedDriveMapOf detected !! D = Some T →
     ∃ x, x ∈ detected ∧ driveNumber x = D ∧ title x = T) ∧
  (∀ D, detectedDriveMapOf detected !! D = None ↔
        ∀ x, x ∈ detected → driveNumber x ≠ D).
Proof.
  split; [|split].
  - intros pre x post -> Hlater.
    rewrite lookup_detectedDriveMapOf, lastTitle_app. simpl.
    apply lastTitle_None in Hlater. rewrite Hlater.
    by rewrite decide_True.
  - intros D T. rewrite lookup_detectedDriveMapOf.
    apply lastTitle_Some_elem.
  - intros D. rewrite lookup_detectedDriveMapOf. apply lastTitle_None.
Qed.

(** ** An empty snapshot, and a restart *)

(** X16. When detection returns no disc, the cycle forgets every disc:
    the tracker is emptied, whatever it held, and nothing is enriched,
    dispatched or published. *)
Theorem empty_snapshot_clears_tracker (cfg : AppConfig) (c : Collaborators)
  (s : Service) :
  importDiscService c = Returned () →
  detectAvailableDiscs c = Returned [] →
  checkDrives cfg c s = (set_processedDiscs ∅ s, [Import; Detect]).
Proof.
  intros Hi Hd.
  rewrite (checkDrives_detected cfg c s () [] Hi Hd). simpl.
  assert (cleanup (detectedDriveMapOf []) (processedDiscs s) = ∅) as ->.
  { apply map_eq. intros D. rewrite lookup_cleanup, lookup_empty.
    destruct (processedDiscs s !! D) as [T|]; [|done].
    rewrite decide_False; [done|].
    by rewrite lookup_detectedDriveMapOf. }
  done.
Qed.

Lemma empty_snapshot_clears_tracker_witness :
  checkDrives cfgRip (inventory [] (Returned ())) trackedA =
  (set_processedDiscs ∅ trackedA, [Import; Detect]).
Proof.
  apply (empty_snapshot_clears_tracker cfgRip (inventory [] (Returned ()))
           trackedA); reflexivity.
Defined.

(** X17. Stopping and restarting the service does not make it rip again.
    [stop()] and [start()] leave the tracker as it is, so when every disc
    of the snapshot is the tracker's entry for its drive, the first tick
    after [stop()] and [start()] calls neither enrichment nor a
    pipeline. *)
Theorem restart_does_not_retrigger (cfg : AppConfig) (c : Collaborators)
  (s : Service) (h : Host) (detected : list Disc) :
  detectAvailableDiscs c = Returned detected →
  (∀ x, x ∈ detected →
        processedDiscs s !! driveNumber x = Some (title x)) →
  processedDiscs
    (start cfg (stop s h).1.1 (stop s h).1.2).1.1 = processedDiscs s ∧
  enrichments
    (pollTick cfg c (start cfg (stop s h).1.1 (stop s h).1.2).1.1).2 = [] ∧
  dispatches
    (pollTick cfg c (start cfg (stop s h).1.1 (stop s h).1.2).1.1).2 = [].
Proof.
  intros Hd Hall.
  assert (processedDiscs
            (start cfg (stop s h).1.1 (stop s h).1.2).1.1 = processedDiscs s)
    as Hsame.
  { destruct (start_gate cfg (stop s h).1.1 (stop s h).1.2) as (_ & _ & ->).
    by destruct (stop_gate s h) as (_ & _ & ->). }
  split; [done|].
  set (s' := (start cfg (stop s h).1.1 (stop s h).1.2).1.1) in *.
  unfold pollTick.
  destruct (truthy (currentOperation s') || isChecking s'); [done|].
  destruct (scan_unchanged_quiet cfg c (set_isChecking true s') detected Hd)
    as [He Hdis].
  { simpl. by rewrite Hsame. }
  destruct (checkDrives cfg c (set_isChecking true s')) as [s1 ev].
  cbn [snd] in *.
  by rewrite enrichments_app, dispatches_app, He, Hdis,
    enrichments_pollCatch, dispatches_pollCatch.
Qed.

Lemma restart_does_not_retrigger_witness :
  (∀ x, x ∈ [rawA] →
        processedDiscs trackedA !! driveNumber x = Some (title x)) ∧
  dispatches
    (pollTick cfgRip (inventory [rawA] (Returned ()))
       (start cfgRip (stop trackedA (host initial)).1.1
          (stop trackedA (host initial)).1.2).1.1).2 = [].
Proof.
  assert (∀ x, x ∈ [rawA] →
            processedDiscs trackedA !! driveNumber x = Some (title x))
    as Hall.
  { intros x ->%list_elem_of_singleton. vm_compute. reflexivity. }
  split; [exact Hall|].
  destruct (restart_does_not_retrigger cfgRip
              (inventory [rawA] (Returned ())) trackedA (host initial)
              [rawA] eq_refl Hall) as (_ & _ & Hdis).
  exact Hdis.
Defined.

(** ** The order of the calls, and who writes the tracker *)

Lemma callsOf_scanCatch (e : JsError) : callsOf (scanCatch e) = [].
Proof.
  by destruct (scanCatch_cases e) as [->|[m ->]].
Qed.

Lemma callsOf_processDiscs (cfg : AppConfig) (c : Collaborators)
  (items : list Disc) (s : Service) :
  callsOf (processDiscs cfg c (Some items) s).2 =
  match items with
  | [] => []
  | _ :: _ => [callPipeline (selectPipeline cfg) items]
  end.
Proof.
  destruct items as [|it rest]; [done|].
  rewrite processDiscs_nonempty by done.
  destruct (selectPipeline cfg), (pipelineOutcome _ _ _); reflexivity.
Qed.

(** X19. A scan cycle calls its collaborators in one fixed order and stops
    at the first that fails.  When the import of the disc service raises,
    the import is its only call.  When the import returns and detection
    raises, or detection returns and no detected disc is new, its calls are
    the import and detection.  When there are new discs and enrichment
    raises or returns an empty list, its calls are the import, detection
    and the enrichment of the new discs.  When enrichment returns a
    non-empty batch, its calls are the import, detection, the enrichment of
    the new discs and one pipeline entry point with that batch, whatever
    that last call does.  So it never detects without the import, never
    enriches before detecting, never dispatches before enriching, and calls
    none of them twice. *)
Theorem scan_cycle_call_order (cfg : AppConfig) (c : Collaborators)
  (s : Service) :
  (∀ e, importDiscService c = Raised e →
        callsOf (checkDrives cfg c s).2 = [Import]) ∧
  (∀ u e, importDiscService c = Returned u →
          detectAvailableDiscs c = Raised e →
          callsOf (checkDrives cfg c s).2 = [Import; Detect]) ∧
  (∀ u detected,
     importDiscService c = Returned u →
     detectAvailableDiscs c = Returned detected →
     let newDiscs :=
       newDiscsOf detected
         (cleanup (detectedDriveMapOf detected) (processedDiscs s)) in
     (newDiscs = [] →
      callsOf (checkDrives cfg c s).2 = [Import; Detect]) ∧
     (newDiscs ≠ [] →
      (∀ e, getCompleteDiscInfo c newDiscs = Raised e →
            callsOf (checkDrives cfg c s).2 =
            [Import; Detect; Enrich newDiscs]) ∧
      (getCompleteDiscInfo c newDiscs = Returned [] →
       callsOf (checkDrives cfg c s).2 =
       [Import; Detect; Enrich newDiscs]) ∧
      (∀ items, items ≠ [] →
         getCompleteDiscInfo c newDiscs = Returned items →
         callsOf (checkDrives cfg c s).2 =
         [Import; Detect; Enrich newDiscs;
          callPipeline (selectPipeline cfg) items]))).
Proof.
  split; [|split].
  - intros e Hi. unfold checkDrives. rewrite Hi. simpl.
    unfold callsOf. rewrite filter_cons_True by done.
    f_equal. apply callsOf_scanCatch.
  - intros u e Hi Hd. unfold checkDrives. rewrite Hi, Hd. simpl.
    unfold callsOf. rewrite !filter_cons_True by done.
    do 2 f_equal. apply callsOf_scanCatch.
  - intros u detected Hi Hd newDiscs.
    rewrite (checkDrives_detected cfg c s u detected Hi Hd). cbn zeta.
    cbn [processedDiscs set_processedDiscs]. fold newDiscs.
    split; [by intros ->|]. intros Hnew.
    destruct newDiscs as [|x rest]; [done|].
    split; [|split].
    + intros e ->. cbn [snd].
      assert (callsOf
                ([Import; Detect; Log Info (MsgDetected (length (x :: rest)));
                  Enrich (x :: rest)] ++ scanCatch e) =
              Import :: Detect :: Enrich (x :: rest)
              :: callsOf (scanCatch e)) as -> by reflexivity.
      by rewrite callsOf_scanCatch.
    + by intros ->.
    + intros items Hne ->.
      match goal with
      | |- callsOf (_, ?pre ++ ?post).2 = _ =>
          assert (callsOf (pre ++ post) =
                  Import :: Detect :: Enrich (x :: rest) :: callsOf post)
            as Hcalls by reflexivity
      end.
      cbn [snd]. rewrite Hcalls, callsOf_processDiscs.
      by destruct items.
Qed.

Lemma scan_cycle_call_order_witness :
  callsOf (checkDrives cfgRip (detectFails busy) trackedA).2 =
    [Import; Detect] ∧
  callsOf
    (checkDrives cfgRip (inventory [rawA] (Returned ())) trackedA).2 =
    [Import; Detect] ∧
  callsOf
    (checkDrives cfgRip (inventory [rawB] (Raised boom)) trackedA).2 =
    [Import; Detect; Enrich [rawB]; RipQueue [fullB]].
Proof.
  split; [|split].
  - destruct (scan_cycle_call_order cfgRip (detectFails busy) trackedA)
      as (_ & Hdetect & _).
    apply (Hdetect () busy); reflexivity.
  - destruct (scan_cycle_call_order cfgRip
                (inventory [rawA] (Returned ())) trackedA)
      as (_ & _ & Hret).
    destruct (Hret () [rawA] eq_refl eq_refl) as (Hnone & _).
    apply Hnone. vm_compute. reflexivity.
  - destruct (scan_cycle_call_order cfgRip
                (inventory [rawB] (Raised boom)) trackedA)
      as (_ & _ & Hret).
    destruct (Hret () [rawB] eq_refl eq_refl) as (_ & Hsome).
    destruct Hsome as (_ & _ & Hitems); [vm_compute; discriminate|].
    apply (Hitems [fullB]); [discriminate | vm_compute; reflexivity].
Defined.

(** X20. Only a scan writes the tracker.  A step of the service changes
    the tracker only when it is the detection call returning (the cleanup)
    or the enrichment call returning a non-empty batch (the marking):
    [start()], [stop()], timer ticks, the import, failed calls and the
    settling of the pipeline call, whether it returns or raises, leave the
    tracker as it is. *)
Theorem tracker_written_only_by_scan (cfg : AppConfig) (a : Action)
  (m m' : Machine) :
  step cfg a m = Some m' →
  processedDiscs (service m') ≠ processedDiscs (service m) →
  ∃ i,
    (∃ detected, a = Settles i (DetectSettled (Returned detected))) ∨
    (∃ items, items ≠ [] ∧ a = Settles i (EnrichSettled (Returned items))).
Proof.
  intros Hstep Hchanged.
  destruct a as [| |t|i r]; simpl in Hstep.
  - exfalso. apply Hchanged.
    destruct (start_gate cfg (service m) (host m)) as (_ & _ & Hpd).
    destruct (start cfg (service m) (host m)) as [[s h] ev].
    by injection Hstep as <-.
  - exfalso. apply Hchanged.
    destruct (stop_gate (service m) (host m)) as (_ & _ & Hpd).
    destruct (stop (service m) (host m)) as [[s h] ev].
    by injection Hstep as <-.
  - exfalso. apply Hchanged.
    destruct (liveTimers (host m) !! t); [|done].
    injection Hstep as <-. unfold timerCallback.
    by destruct (truthy _ || _).
  - exists i.
    destruct (pending m !! i) as [t0|]; [|done].
    destruct (resume cfg t0 r (service m)) as [[[s ev] next]|] eqn:Hres;
      [|done].
    injection Hstep as <-. simpl in Hchanged.
    destruct t0, r as [o|o|o|o]; simpl in Hres; try done.
    + exfalso. by destruct o; injection Hres as <- <- <-.
    + destruct o as [detected|e]; [left; eauto|].
      exfalso. by injection Hres as <- <- <-.
    + destruct o as [[|it items]|e];
        [exfalso; by injection Hres as <- <- <- |
         right; by exists (it :: items) |
         exfalso; by injection Hres as <- <- <-].
    + exfalso. by injection Hres as <- <- <-.
Qed.

Lemma tracker_written_only_by_scan_witness :
  (processedDiscs ∘ service
   <$> step cfgRip (Settles 0 (DetectSettled (Returned []))) awaitingDetect)
  = Some ∅ ∧
  ∃ i,
    (∃ detected,
       Settles 0 (DetectSettled (Returned [])) =
       Settles i (DetectSettled (Returned detected))) ∨
    (∃ items, items ≠ [] ∧
       Settles 0 (DetectSettled (Returned [])) =
       Settles i (EnrichSettled (Returned items))).
Proof.
  split; [vm_compute; reflexivity|].
  destruct (step cfgRip (Settles 0 (DetectSettled (Returned [])))
              awaitingDetect) as [m'|] eqn:Hstep; [|discriminate].
  apply (tracker_written_only_by_scan cfgRip _ awaitingDetect m' Hstep).
  vm_compute in Hstep. injection Hstep as <-.
  intros Heq. vm_compute in Heq. discriminate.
Defined.
